(** * City-pop chord-progression generator: a shallow embedding

    The development models the TypeScript class [EnhancedCityPopGenerator]
    and its exported entry point [generateAndDownloadMidi].

    Conventions of the embedding.
    - MIDI pitches are JavaScript numbers that only ever hold integers
      (sums and differences of integer constants); they are modelled in [Z].
    - Every other JavaScript number (tempo, times, velocities, tension
      values, the results of [Math.random()]) is an IEEE double in the
      source; it is idealised here as an exact rational in [Q].
    - [Math.random()] is an oracle: the n-th call of a run returns the n-th
      value of a sequence of rationals in the half-open interval [0,1).
      Code that draws is written in a state monad over the call counter.
    - A JavaScript exception is the [Throw] constructor of [Result].
    - An array read [arr[Math.floor(Math.random() * arr.length)]] is
      [nth idx arr 0]: the index is in range whenever the array is not empty
      ([always_randomIndex]). The arrays read this way are the tension and
      alteration lists of the catalogs and the chord being spread, none of
      which is empty; the two reads that can yield [undefined] (the
      progression and the voicing selection) are modelled with [option].
    - The MIDI encoder ([@tonejs/midi]) is external. What it has received
      when [midi.toArray()] is called is a [MidiData]; the call itself is a
      parameter [toArray : Encoder] of the driver, which returns the bytes or
      throws. Theorems hold for every encoder. [Blob] and
      [URL.createObjectURL] are external too; the object URL stands for the
      bytes it was created from. *)

From Stdlib Require Import String Ascii DecimalString.
From Stdlib Require Import ZArith QArith Qround Qabs Bool List Permutation Sorted.
From Stdlib Require Import Reals Psatz.
Import ListNotations.

Local Open Scope Z_scope.

(** ** Numbers *)

Definition Qltb (x y : Q) : bool := negb (Qle_bool y x).

Definition Qmaxq (x y : Q) : Q := if Qle_bool x y then y else x.
Definition Qminq (x y : Q) : Q := if Qle_bool x y then x else y.

(** [Math.floor] and [Math.round] (round half up) on rationals. *)
Definition Math_floor (x : Q) : Z := Qfloor x.
Definition Math_round (x : Q) : Z := Qfloor (x + (1 # 2)).

(** ** The random source *)

Definition in01 (q : Q) : bool := Qle_bool 0 q && Qltb q 1.

(** A result of [Math.random()]: a rational in [0,1). *)
Record U01 : Type := mkU01 { u_val : Q; u_range : in01 u_val = true }.

Definition Oracle : Type := nat -> U01.

(** Computations that call [Math.random()]: the oracle is read, the number
    of calls made so far is the state. *)
Definition Rand (A : Type) : Type := Oracle -> nat -> A * nat.

Definition ret {A} (a : A) : Rand A := fun _ k => (a, k).

Definition bind {A B} (m : Rand A) (f : A -> Rand B) : Rand B :=
  fun rnd k => let (a, k') := m rnd k in f a rnd k'.

Definition Math_random : Rand Q := fun rnd k => (u_val (rnd k), S k).

Declare Scope rand_scope.
Delimit Scope rand_scope with rand.
Notation "x <- m ;; f" := (bind m (fun x => f))
  (at level 100, m at next level, right associativity) : rand_scope.
Local Open Scope rand_scope.

(** [Math.random() < p] *)
Definition chance (p : Q) : Rand bool :=
  r <- Math_random ;; ret (Qltb r p).

(** [Math.floor(Math.random() * n)] *)
Definition randomIndex (n : nat) : Rand nat :=
  r <- Math_random ;; ret (Z.to_nat (Math_floor (r * inject_Z (Z.of_nat n)))).

(** [Array.prototype.map] / [forEach] with a callback that draws: the
    callback runs on the elements from left to right. *)
Fixpoint mapM {A B} (f : A -> Rand B) (l : list A) : Rand (list B) :=
  match l with
  | [] => ret []
  | a :: t => b <- f a ;; bs <- mapM f t ;; ret (b :: bs)
  end.

(** ** Exceptions *)

Inductive JsError : Type :=
| TypeError (msg : string)
| Error (msg : string)
| Thrown (value : string).

Inductive Result (A : Type) : Type :=
| Ok (a : A)
| Throw (e : JsError).
Arguments Ok {A} a.
Arguments Throw {A} e.

(** ** Data model (interfaces [ExtendedVoicing], [ProgressionTemplate]) *)

Inductive Era : Type := E70s | Eearly80s | Emid80s | Elate80s.
Inductive Style : Type := ballad | uptempo | fusion.
Inductive Category : Type := c_citypop | c_fusion | c_jazz | c_ballad.

Definition Era_eqb (a b : Era) : bool :=
  match a, b with
  | E70s, E70s | Eearly80s, Eearly80s | Emid80s, Emid80s | Elate80s, Elate80s => true
  | _, _ => false
  end.

Definition Style_eqb (a b : Style) : bool :=
  match a, b with
  | ballad, ballad | uptempo, uptempo | fusion, fusion => true
  | _, _ => false
  end.

Definition eraName (e : Era) : string :=
  match e with
  | E70s => "70s" | Eearly80s => "early80s" | Emid80s => "mid80s" | Elate80s => "late80s"
  end.

Definition styleName (s : Style) : string :=
  match s with ballad => "ballad" | uptempo => "uptempo" | fusion => "fusion" end.

Record ExtendedVoicing : Type := {
  intervals : list Z;
  tensions : list Z;
  alterations : list Z;
  category : Category;
  weight : Q;
  era : option Era;
  artistStyle : option string
}.

Record ProgressionTemplate : Type := {
  roots : list Z;
  weights : list Q;
  style : string;
  complexity : Q
}.

Record StyleSetting : Type := {
  tempoRange : Q * Q;
  velocityRange : Q * Q;
  swingFactor : Q
}.

(** The constructor argument [options]; every field may be absent. *)
Record Options : Type := {
  opt_era : option Era;
  opt_style : option Style;
  opt_artistInfluence : option string;
  opt_complexity : option Q
}.

(** ** The catalogs *)

Definition voicings : list (string * ExtendedVoicing) := [
  ("maj9"%string,
   {| intervals := [0; 4; 7; 11; 14]; tensions := [9; 13]; alterations := [8; 15];
      category := c_citypop; weight := 1; era := Some Eearly80s; artistStyle := None |});
  ("maj7_13"%string,
   {| intervals := [0; 4; 7; 11; 21]; tensions := [9; 13]; alterations := [8; 15];
      category := c_citypop; weight := 0.8; era := Some Emid80s; artistStyle := None |});
  ("min11"%string,
   {| intervals := [0; 3; 7; 10; 14; 17]; tensions := [15; 22]; alterations := [8];
      category := c_citypop; weight := 0.7; era := Some Eearly80s; artistStyle := None |});
  ("maj9_13"%string,
   {| intervals := [0; 4; 7; 11; 14; 21]; tensions := [13; 15]; alterations := [8; 22];
      category := c_jazz; weight := 0.9; era := None;
      artistStyle := Some "Tatsuro Yamashita"%string |});
  ("maj7_9_13"%string,
   {| intervals := [0; 4; 7; 11; 14; 21]; tensions := [13; 15; 22]; alterations := [8; 15];
      category := c_ballad; weight := 0.7; era := None;
      artistStyle := Some "Mariya Takeuchi"%string |});
  ("kadomatsu_fusion"%string,
   {| intervals := [0; 4; 7; 10; 15; 21]; tensions := [9; 13; 15]; alterations := [8; 22];
      category := c_fusion; weight := 0.8; era := None;
      artistStyle := Some "Toshiki Kadomatsu"%string |});
  ("anri_pop"%string,
   {| intervals := [0; 4; 7; 11; 14]; tensions := [9; 13]; alterations := [15];
      category := c_citypop; weight := 0.85; era := None;
      artistStyle := Some "Anri"%string |})
].

Definition progressionTemplates : list ProgressionTemplate := [
  {| roots := [0; 5; 3; 4]; weights := ([1; 0.8; 0.7; 0.9])%Q;
     style := "standard"; complexity := 0.7 |};
  {| roots := [0; 5; 1; 4]; weights := ([1; 0.7; 0.8; 0.9])%Q;
     style := "jazz"; complexity := 0.8 |};
  {| roots := [3; 4; 0; 5; 1]; weights := ([0.8; 0.9; 1; 0.7; 0.8])%Q;
     style := "fusion"; complexity := 0.9 |};
  {| roots := [0; 2; 5; 1]; weights := ([1; 0.6; 0.7; 0.8])%Q;
     style := "ballad"; complexity := 0.6 |}
].

Definition styleSettings (s : Style) : StyleSetting :=
  match s with
  | ballad => {| tempoRange := (65, 80); velocityRange := (60, 85); swingFactor := 0.2 |}
  | uptempo => {| tempoRange := (120, 135); velocityRange := (75, 95); swingFactor := 0.4 |}
  | fusion => {| tempoRange := (90, 110); velocityRange := (70, 90); swingFactor := 0.3 |}
  end%Q.

(** ** JavaScript idioms *)

(** Truthiness of an optional string-literal field ([!this.options.era]):
    an era or style tag is a non-empty literal, so it is truthy exactly
    when present; a free-form string is falsy when absent or empty. *)
Definition truthy {A} (o : option A) : bool :=
  match o with Some _ => true | None => false end.

Definition truthyString (o : option string) : bool :=
  match o with
  | Some EmptyString => false
  | Some (String _ _) => true
  | None => false
  end.

(** Strict equality [===] between possibly-undefined values. *)
Definition strictEq {A} (eqb : A -> A -> bool) (a b : option A) : bool :=
  match a, b with
  | Some x, Some y => eqb x y
  | None, None => true
  | _, _ => false
  end.

(** [Set<number>]: insertion order is kept, a present value is not added
    again; [Array.from] of the set is the list itself. *)
Definition Set_add (x : Z) (s : list Z) : list Z :=
  if existsb (Z.eqb x) s then s else s ++ [x].

(** [arr.sort((a, b) => a - b)] *)
Fixpoint insertAsc (x : Z) (l : list Z) : list Z :=
  match l with
  | [] => [x]
  | y :: t => if x <? y then x :: y :: t else y :: insertAsc x t
  end.

Definition sortAsc (l : list Z) : list Z := fold_left (fun acc x => insertAsc x acc) l [].

(** [Math.max(...arr)] on a non-empty array. *)
Definition Math_max (l : list Z) : Z := fold_right Z.max (hd 0 l) l.

(** The template-literal rendering of an integer. *)
Definition showZ (z : Z) : string := NilZero.string_of_int (Z.to_int z).

(** ** Voicing builder (lines 140-221) *)

Definition adjustNoteForEra (options : Options) (note : Z) : Rand Z :=
  match opt_era options with
  | Some E70s => b <- chance 0.3 ;; ret (note - (if b then 12 else 0))
  | Some Emid80s => b <- chance 0.4 ;; ret (note + (if b then 12 else 0))
  | _ => ret note
  end.

Definition getEraTensionProbability (options : Options) : Q :=
  match opt_era options with
  | Some E70s => 0.5
  | Some Eearly80s => 0.7
  | Some Emid80s => 0.9
  | Some Elate80s => 0.6
  | None => 0.7
  end.

Definition getBassProbability (options : Options) : Rand Z :=
  match opt_era options with
  | Some E70s => ret 12
  | Some Emid80s => b <- chance 0.5 ;; ret (if b then 24 else 12)
  | _ => b <- chance 0.3 ;; ret (if b then 24 else 12)
  end.

(** [notes.forEach(note => { if (note - root > 12) notes.add(note - 12) })]:
    a [Set] iteration also visits the values appended while it runs.
    [visited] are the values already passed, [pending] those still to come;
    each visit uses one unit of [fuel]. *)
Fixpoint closerVoicing (fuel : nat) (root : Z) (visited pending : list Z) : list Z :=
  match fuel, pending with
  | _, [] => visited
  | O, _ => visited ++ pending
  | S fuel', note :: rest =>
      if (note - root >? 12) && negb (existsb (Z.eqb (note - 12)) (visited ++ pending))
      then closerVoicing fuel' root (visited ++ [note]) (rest ++ [note - 12])
      else closerVoicing fuel' root (visited ++ [note]) rest
  end.

(** Number of visits the iteration can make, at most. *)
Definition visitBound (root : Z) (pending : list Z) : nat :=
  fold_right (fun note acc => (1 + Z.to_nat (note - root) + acc)%nat) O pending.

Definition applyArtistModifications (options : Options) (notes : list Z) (root : Z)
  : list Z :=
  match opt_artistInfluence options with
  | Some s =>
      if String.eqb s "Tatsuro Yamashita" then Set_add (root + 22) notes
      else if String.eqb s "Mariya Takeuchi" then
        closerVoicing (visitBound root notes) root [] notes
      else if String.eqb s "Toshiki Kadomatsu" then
        Set_add (root + 15) (Set_add (root + 21) notes)
      else notes
  | None => notes
  end.

(** ** Register spreader (lines 326-405) *)

Definition minSpacing (options : Options) : Z :=
  if strictEq Style_eqb (opt_style options) (Some ballad) then 3 else 2.

Definition maxSpacing (options : Options) : Z :=
  if strictEq Style_eqb (opt_style options) (Some fusion) then 24 else 12.

(** The loop [for (i = 1; ...) if (spread[i] - spread[i-1] < minSpacing)
    spread[i] += 12] updates in place: [prev] is the already updated
    left neighbour. *)
Fixpoint spacingFrom (minSp prev : Z) (rest : list Z) : list Z :=
  match rest with
  | [] => []
  | x :: t =>
      let x' := if x - prev <? minSp then x + 12 else x in
      x' :: spacingFrom minSp x' t
  end.

Definition ensureSpacing (minSp : Z) (spread : list Z) : list Z :=
  match spread with
  | [] => []
  | x :: t => x :: spacingFrom minSp x t
  end.

(** Octave doubling: [style === 'fusion' || Math.random() < 0.4]; the
    right operand is evaluated, and draws, only when the left is false. *)
Definition octaveDoubling (options : Options) (spread : list Z) : Rand (list Z) :=
  doIt <- (if strictEq Style_eqb (opt_style options) (Some fusion)
           then ret true else chance 0.4) ;;
  if doIt : bool then
    idx <- randomIndex (length spread) ;;
    ret (spread ++ [nth idx spread 0 + 12])
  else ret spread.

(** [spread.map(note => note > spread[0] + limit ? note - 12 : note)] *)
Definition pullDown (limit : Q) (spread : list Z) : list Z :=
  map (fun note =>
         if Qltb (inject_Z (hd 0 spread) + limit) (inject_Z note) then note - 12 else note)
      spread.

Definition eraAdjust (options : Options) (spread : list Z) : list Z :=
  match opt_era options with
  | Some Emid80s => pullDown (inject_Z (maxSpacing options)) spread
  | Some E70s => pullDown (inject_Z (maxSpacing options) / 2) spread
  | _ => spread
  end.

Definition artistAdjust (options : Options) (spread : list Z) : Rand (list Z) :=
  if truthyString (opt_artistInfluence options) then
    match opt_artistInfluence options with
    | Some s =>
        if String.eqb s "Tatsuro Yamashita" then
          b <- chance 0.5 ;;
          if b : bool then ret (spread ++ [Math_max spread + 12]) else ret spread
        else if String.eqb s "Mariya Takeuchi" then
          ret (pullDown (inject_Z (maxSpacing options) / 1.5) spread)
        else ret spread
    | None => ret spread
    end
  else ret spread.

(** The callback of "Optimize overall range". *)
Definition rangeClamp (note : Z) : Z :=
  if note <? 36 then note + 12
  else if note >? 84 then note - 12
  else note.

Definition positionAdjust (position : nat) (spread : list Z) : Rand (list Z) :=
  if (0 <? position)%nat then
    let positionFactor := (inject_Z (Z.of_nat position) / 8)%Q in
    grow <- chance positionFactor ;;
    if grow : bool then
      let highNote := Math_max spread in
      b <- chance 0.5 ;;
      ret (spread ++ [highNote + (if b : bool then 12 else 7)])
    else ret spread
  else ret spread.

(** Everything [spreadVoicing] does before the range map (lines 327-385). *)
Definition spreadBeforeClamp (options : Options) (notes : list Z) : Rand (list Z) :=
  let spread := ensureSpacing (minSpacing options) (sortAsc notes) in
  spread <- octaveDoubling options spread ;;
  let spread := eraAdjust options spread in
  artistAdjust options spread.

Definition spreadVoicing (options : Options) (notes : list Z) (position : nat)
  : Rand (list Z) :=
  spread <- spreadBeforeClamp options notes ;;
  let spread := map rangeClamp spread in
  spread <- positionAdjust position spread ;;
  ret (sortAsc spread).

(** ** Voicing builder, continued *)

Fixpoint addIntervals (options : Options) (root : Z) (ivs notes : list Z)
  : Rand (list Z) :=
  match ivs with
  | [] => ret notes
  | interval :: t =>
      n <- adjustNoteForEra options (root + interval) ;;
      addIntervals options root t (Set_add n notes)
  end.

Fixpoint addTensions (options : Options) (root : Z) (voicing : ExtendedVoicing)
    (count : nat) (notes : list Z) : Rand (list Z) :=
  match count with
  | O => ret notes
  | S c =>
      b <- chance (getEraTensionProbability options) ;;
      if b : bool then
        idx <- randomIndex (length (tensions voicing)) ;;
        let tension := nth idx (tensions voicing) 0 in
        addTensions options root voicing c (Set_add (root + tension) notes)
      else addTensions options root voicing c notes
  end.

Definition tensionCount (options : Options) (cplx : Q) : Z :=
  Math_floor (cplx * (if strictEq Era_eqb (opt_era options) (Some Emid80s) then 3 else 2)).

(** The note set of [createRichVoicing] up to and including the bass note
    (lines 146-170). *)
Definition voicingNotes (options : Options) (root : Z) (voicing : ExtendedVoicing)
    (cplx : Q) : Rand (list Z) :=
  notes <- addIntervals options root (intervals voicing) [] ;;
  notes <- addTensions options root voicing (Z.to_nat (tensionCount options cplx)) notes ;;
  let notes :=
    if strictEq String.eqb (artistStyle voicing) (opt_artistInfluence options)
    then applyArtistModifications options notes root else notes in
  bassOctave <- getBassProbability options ;;
  let bassNote := root - bassOctave in
  ret (Set_add bassNote notes).

Definition createRichVoicing (options : Options) (root : Z) (voicing : ExtendedVoicing)
    (cplx : Q) (position : nat) : Rand (list Z) :=
  notes <- voicingNotes options root voicing cplx ;;
  spreadVoicing options notes position.

(** ** Tension arc (lines 314-323) *)

(** [Math.floor(length / phi)] for [phi = (1 + Math.sqrt(5)) / 2], computed
    in integers: [length / phi = (sqrt(5 * length^2) - length) / 2]. *)
Definition peakOf (length : nat) : Z :=
  let l := Z.of_nat length in (Z.sqrt (5 * l * l) - l) / 2.

Definition tensionAt (length : nat) (peak : Z) (i : nat) (r : Q) : Q :=
  let baseTension :=
    (0.5 + 0.4 * (1 - Qabs (inject_Z (Z.of_nat i) - inject_Z peak)
                      / (inject_Z (Z.of_nat length) / 2)))%Q in
  let randomFactor := ((r - 0.5) * 0.2)%Q in
  Qmaxq 0.3 (Qminq 0.9 (baseTension + randomFactor)).

Definition generateTensionArc (length : nat) : Rand (list Q) :=
  let peak := peakOf length in
  mapM (fun i => r <- Math_random ;; ret (tensionAt length peak i r)) (seq 0 length).

(** ** Voice leading (lines 275-284) *)

(** [prevNotes.reduce((prev, curr) => |curr - note| < |prev - note| ? curr : prev)]
    without an initial value: the accumulator starts at the first element.
    The call is guarded by [prevNotes.length > 0]. *)
Definition closest (prevNotes : list Z) (note : Z) : Z :=
  match prevNotes with
  | [] => 0
  | p :: t =>
      fold_left (fun prev curr =>
                   if Z.abs (curr - note) <? Z.abs (prev - note) then curr else prev) t p
  end.

Definition smoothNote (prevNotes : list Z) (note : Z) : Z :=
  let c := closest prevNotes note in
  if Z.abs (c - note) >? 7 then note + (if c >? note then 12 else -12) else note.

Definition voiceLeading (prevNotes notes : list Z) : list Z :=
  if (0 <? length prevNotes)%nat then map (smoothNote prevNotes) notes else notes.

(** ** Composition driver (lines 223-312) *)

Record NoteEvent : Type := {
  midi : Z;
  time : Q;
  duration : Q;
  velocity : Q
}.

(** What the encoder has received when [midi.toArray()] is called. *)
Record MidiData : Type := {
  header_tempo : Q;
  track_notes : list NoteEvent
}.

(** The contents of a [Uint8Array]. *)
Definition Bytes : Type := list Z.

(** [midi.toArray()]: the external encoder turns what it has received into
    bytes, or throws (a value of its own choosing). *)
Definition Encoder : Type := MidiData -> Result Bytes.

Record MidiFile : Type := {
  data : Bytes;
  tempo : Q;
  name : string
}.

Record LoopState : Type := {
  ls_time : Q;
  ls_prevNotes : list Z;
  ls_track : list NoteEvent
}.

Definition styleOrDefault (options : Options) : Style :=
  match opt_style options with Some s => s | None => uptempo end.

Definition applySwing (options : Options) (t : Q) : Rand Q :=
  let sf := swingFactor (styleSettings (styleOrDefault options)) in
  r <- Math_random ;;
  ret (t + (r * sf - sf / 2))%Q.

(** The body of [notes.forEach(note => { ... track.addNote(...) })]. *)
Definition addNote (settings : StyleSetting) (chordStart : Q) (note : Z) : Rand NoteEvent :=
  rv <- Math_random ;;
  let vel := (fst (velocityRange settings)
              + rv * (snd (velocityRange settings) - fst (velocityRange settings)))%Q in
  rt <- Math_random ;;
  let noteTime := (chordStart + (rt - 0.5) * 0.01)%Q in
  rd <- Math_random ;;
  let dur := (1.95 + (rd - 0.5) * 0.1)%Q in
  ret {| midi := Z.max 0 (Z.min 127 note);
         time := noteTime;
         duration := dur;
         velocity := (vel / 127)%Q |}.

Definition voicingKeys (options : Options) : list string :=
  map fst
    (filter (fun kv =>
               let v := snd kv in
               (negb (truthy (opt_era options))
                || strictEq Era_eqb (era v) (opt_era options))
               && (negb (truthyString (opt_artistInfluence options))
                   || strictEq String.eqb (artistStyle v) (opt_artistInfluence options)))
            voicings).

(** [this.voicings[key]] where [key] may be [undefined]. *)
Definition lookupVoicing (key : option string) : option ExtendedVoicing :=
  match key with
  | Some k => option_map snd (find (fun kv => String.eqb (fst kv) k) voicings)
  | None => None
  end.

Definition validTemplates (sty : Style) : list ProgressionTemplate :=
  filter (fun t => String.eqb (style t) (styleName sty) || String.eqb (style t) "standard")
         progressionTemplates.

(** [progression.complexity || 1] *)
Definition complexityOrOne (p : ProgressionTemplate) : Q :=
  if Qeq_bool (complexity p) 0 then 1 else complexity p.

(** One iteration of the [for] loop. Reading [progression.roots] of an
    undefined template and reading [voicing.intervals] of an undefined
    voicing (line 149, inside [createRichVoicing]) throw a [TypeError]. *)
Definition chordStep (options : Options) (settings : StyleSetting)
    (progression : option ProgressionTemplate) (tensionArc : list Q)
    (i : nat) (st : LoopState) : Rand (Result LoopState) :=
  match progression with
  | None => ret (Throw (TypeError "Cannot read properties of undefined (reading 'roots')"))
  | Some progression =>
      let rootIndex := (i mod length (roots progression))%nat in
      let root := 60 + nth rootIndex (roots progression) 0 in
      let keys := voicingKeys options in
      idx <- randomIndex (length keys) ;;
      let selectedVoicing := lookupVoicing (nth_error keys idx) in
      let cplx := (nth i tensionArc 0 * complexityOrOne progression)%Q in
      match selectedVoicing with
      | None =>
          ret (Throw (TypeError "Cannot read properties of undefined (reading 'intervals')"))
      | Some voicing =>
          notes <- createRichVoicing options root voicing cplx i ;;
          let notes := voiceLeading (ls_prevNotes st) notes in
          chordStart <- applySwing options (ls_time st) ;;
          events <- mapM (addNote settings chordStart) notes ;;
          ret (Ok {| ls_time := (ls_time st + 2)%Q;
                     ls_prevNotes := notes;
                     ls_track := ls_track st ++ events |})
      end
  end.

(** [for (let i = start; i < start + count; i++) body], stopping at the
    first exception. *)
Fixpoint forLoop (body : nat -> LoopState -> Rand (Result LoopState))
    (i count : nat) (st : LoopState) : Rand (Result LoopState) :=
  match count with
  | O => ret (Ok st)
  | S c =>
      r <- body i st ;;
      match r with
      | Ok st' => forLoop body (S i) c st'
      | Throw e => ret (Throw e)
      end
  end.

Definition initialState : LoopState :=
  {| ls_time := 0; ls_prevNotes := []; ls_track := [] |}.

Definition orElse (o : option string) (d : string) : string :=
  match o with Some s => s | None => d end.

(** "Select progression template based on style" (lines 243-248): the
    result is [undefined] when the index falls outside the array. *)
Definition selectProgression (sty : Style) : Rand (option ProgressionTemplate) :=
  let valid := validTemplates sty in
  idx <- randomIndex (length valid) ;;
  ret (nth_error valid idx).

(** [toArray] is the encoder's [midi.toArray()], [now] the value of
    [Date.now()]. The returned object literal evaluates [midi.toArray()]
    first: when it throws, so does [generateMidiFile]. *)
Definition generateMidiFile (toArray : Encoder) (options : Options) (now : Z)
  : Rand (Result MidiFile) :=
  let sty := styleOrDefault options in
  let settings := styleSettings sty in
  r <- Math_random ;;
  let tempo := (fst (tempoRange settings)
                + r * (snd (tempoRange settings) - fst (tempoRange settings)))%Q in
  progression <- selectProgression sty ;;
  let length := 8%nat in
  tensionArc <- generateTensionArc length ;;
  res <- forLoop (chordStep options settings progression tensionArc) 0 length initialState ;;
  match res with
  | Throw e => ret (Throw e)
  | Ok st =>
      match toArray {| header_tempo := tempo; track_notes := ls_track st |} with
      | Throw e => ret (Throw e)
      | Ok bytes =>
          ret (Ok {| data := bytes;
                     tempo := tempo;
                     name := "citypop-"
                             ++ orElse (option_map eraName (opt_era options)) "standard"
                             ++ "-"
                             ++ orElse (option_map styleName (opt_style options)) "uptempo"
                             ++ "-" ++ showZ now |})
      end
  end.

(** ** Exported entry point (lines 408-427) *)

(** The object URL stands for the blob it was created from. *)
Inductive ObjectURL : Type := createObjectURL (blob : Bytes).

Record Download : Type := {
  url : ObjectURL;
  filename : string
}.

Definition generateAndDownloadMidi (toArray : Encoder) (options : Options) (now : Z)
  : Rand (Result Download) :=
  res <- generateMidiFile toArray options now ;;
  match res with
  | Ok file =>
      ret (Ok {| url := createObjectURL (data file);
                 filename := name file ++ "-" ++ showZ (Math_round (tempo file)) ++ "bpm.mid" |})
  | Throw _ => ret (Throw (Error "Failed to generate MIDI file"))
  end.

(** ** The earlier variant ([sailormoongene.ts])

    The same generator without configuration: six untagged voicings, four
    progressions, a fixed tempo window, no era or artist shaping. Tension
    arc, spacing loop, range map and voice leading are the same code as
    above and are shared. *)
Module SailorMoonGene.

Record ExtendedVoicing : Type := {
  intervals : list Z;
  tensions : list Z;
  alterations : list Z;
  category : Category;
  weight : Q
}.

Record ProgressionTemplate : Type := {
  roots : list Z;
  weights : list Q
}.

Definition voicings : list (string * ExtendedVoicing) := [
  ("maj9"%string,
   {| intervals := [0; 4; 7; 11; 14]; tensions := [9; 13]; alterations := [8; 15];
      category := c_citypop; weight := 1 |});
  ("maj7_13"%string,
   {| intervals := [0; 4; 7; 11; 21]; tensions := [9; 13]; alterations := [8; 15];
      category := c_citypop; weight := 0.8 |});
  ("min11"%string,
   {| intervals := [0; 3; 7; 10; 14; 17]; tensions := [15; 22]; alterations := [8];
      category := c_citypop; weight := 0.7 |});
  ("maj9_13"%string,
   {| intervals := [0; 4; 7; 11; 14; 21]; tensions := [13; 15]; alterations := [8; 22];
      category := c_jazz; weight := 0.9 |});
  ("dom7alt"%string,
   {| intervals := [0; 4; 7; 10; 15]; tensions := [8; 14]; alterations := [9; 13];
      category := c_fusion; weight := 0.5 |});
  ("min9_13"%string,
   {| intervals := [0; 3; 7; 10; 14; 21]; tensions := [15; 22]; alterations := [8];
      category := c_jazz; weight := 0.6 |})
].

Definition progressionTemplates : list ProgressionTemplate := [
  {| roots := [0; 5; 3; 4]; weights := ([1; 0.8; 0.7; 0.9])%Q |};
  {| roots := [0; 5; 1; 4]; weights := ([1; 0.7; 0.8; 0.9])%Q |};
  {| roots := [3; 4; 0; 5]; weights := ([0.8; 0.9; 1; 0.7])%Q |};
  {| roots := [0; 2; 3; 4]; weights := ([1; 0.6; 0.8; 0.9])%Q |}
].

(** Lines 111-135. *)
Definition spreadBeforeClamp (notes : list Z) : Rand (list Z) :=
  let spread := ensureSpacing 2 (sortAsc notes) in
  doIt <- chance 0.4 ;;
  if doIt : bool then
    idx <- randomIndex (length spread) ;;
    ret (spread ++ [nth idx spread 0 + 12])
  else ret spread.

Definition spreadVoicing (notes : list Z) (position : nat) : Rand (list Z) :=
  spread <- spreadBeforeClamp notes ;;
  ret (sortAsc (map rangeClamp spread)).

Fixpoint addTensions (root : Z) (voicing : ExtendedVoicing) (cplx : Q)
    (count : nat) (notes : list Z) : Rand (list Z) :=
  match count with
  | O => ret notes
  | S c =>
      b <- chance cplx ;;
      if b : bool then
        idx <- randomIndex (length (tensions voicing)) ;;
        let tension := nth idx (tensions voicing) 0 in
        addTensions root voicing cplx c (Set_add (root + tension) notes)
      else addTensions root voicing cplx c notes
  end.

(** Lines 75-109. *)
Definition createRichVoicing (root : Z) (voicing : ExtendedVoicing) (cplx : Q)
    (position : nat) : Rand (list Z) :=
  let notes := fold_left (fun acc interval => Set_add (root + interval) acc)
                         (intervals voicing) [] in
  let tensionCount := Math_floor (cplx * 2.5) in
  notes <- addTensions root voicing cplx (Z.to_nat tensionCount) notes ;;
  alter <- chance (cplx * 0.7) ;;
  notes <- (if alter : bool then
              idx <- randomIndex (length (alterations voicing)) ;;
              let alteration := nth idx (alterations voicing) 0 in
              ret (Set_add (root + alteration) notes)
            else ret notes) ;;
  deep <- chance 0.3 ;;
  let bassNote := root - (if deep : bool then 24 else 12) in
  let notes := Set_add bassNote notes in
  spreadVoicing notes position.

Definition addNote (chordStart : Q) (note : Z) : Rand NoteEvent :=
  rv <- Math_random ;;
  let vel := Qminq 100 (Qmaxq 60 (85 + (rv - 0.5) * 20)) in
  rt <- Math_random ;;
  let noteTime := (chordStart + (rt - 0.5) * 0.01)%Q in
  rd <- Math_random ;;
  let dur := (1.95 + (rd - 0.5) * 0.1)%Q in
  ret {| midi := Z.max 0 (Z.min 127 note);
         time := noteTime;
         duration := dur;
         velocity := (vel / 127)%Q |}.

Definition voicingKeys : list string := map fst voicings.

Definition lookupVoicing (key : option string) : option ExtendedVoicing :=
  match key with
  | Some k => option_map snd (find (fun kv => String.eqb (fst kv) k) voicings)
  | None => None
  end.

(** One iteration of the loop of lines 166-213. *)
Definition chordStep (progression : option ProgressionTemplate) (tensionArc : list Q)
    (i : nat) (st : LoopState) : Rand (Result LoopState) :=
  match progression with
  | None => ret (Throw (TypeError "Cannot read properties of undefined (reading 'roots')"))
  | Some progression =>
      let rootIndex := (i mod length (roots progression))%nat in
      let root := 60 + nth rootIndex (roots progression) 0 in
      idx <- randomIndex (length voicingKeys) ;;
      let selectedVoicing := lookupVoicing (nth_error voicingKeys idx) in
      let cplx := nth i tensionArc 0%Q in
      match selectedVoicing with
      | None =>
          ret (Throw (TypeError "Cannot read properties of undefined (reading 'intervals')"))
      | Some voicing =>
          notes <- createRichVoicing root voicing cplx i ;;
          let notes := voiceLeading (ls_prevNotes st) notes in
          r <- Math_random ;;
          let chordStart := (ls_time st + (r - 0.5) * 0.02)%Q in
          events <- mapM (addNote chordStart) notes ;;
          ret (Ok {| ls_time := (ls_time st + 2)%Q;
                     ls_prevNotes := notes;
                     ls_track := ls_track st ++ events |})
      end
  end.

Definition generateMidiFile (toArray : Encoder) (now : Z) : Rand (Result MidiFile) :=
  r <- Math_random ;;
  let tempo := (72 + r * 30)%Q in
  idx <- randomIndex (length progressionTemplates) ;;
  let progression := nth_error progressionTemplates idx in
  let length := 8%nat in
  tensionArc <- generateTensionArc length ;;
  res <- forLoop (chordStep progression tensionArc) 0 length initialState ;;
  match res with
  | Throw e => ret (Throw e)
  | Ok st =>
      match toArray {| header_tempo := tempo; track_notes := ls_track st |} with
      | Throw e => ret (Throw e)
      | Ok bytes =>
          ret (Ok {| data := bytes;
                     tempo := tempo;
                     name := "citypop-progression-" ++ showZ now |})
      end
  end.

Definition generateAndDownloadMidi (toArray : Encoder) (now : Z)
  : Rand (Result Download) :=
  res <- generateMidiFile toArray now ;;
  match res with
  | Ok file =>
      ret (Ok {| url := createObjectURL (data file);
                 filename := name file ++ "-" ++ showZ (Math_round (tempo file))
                             ++ "bpm.mid" |})
  | Throw _ => ret (Throw (Error "Failed to generate MIDI file"))
  end.

End SailorMoonGene.

(** ** Specification-side definitions *)

(** [c] is the note of [prevNotes] closest to [note], the first one in
    iteration order among those at minimal distance. *)
Definition isClosest (prevNotes : list Z) (note c : Z) : Prop :=
  exists k : nat,
    nth_error prevNotes k = Some c
    /\ (forall j p, nth_error prevNotes j = Some p -> Z.abs (c - note) <= Z.abs (p - note))
    /\ (forall j p, (j < k)%nat -> nth_error prevNotes j = Some p ->
                    Z.abs (c - note) < Z.abs (p - note)).

(** The smoothing rule in the words of the property list: shift up when the
    closest previous note is above the note, down otherwise. *)
Definition smoothTowards (c note : Z) : Z :=
  if 7 <? Z.abs (c - note) then (if note <? c then note + 12 else note - 12) else note.

(** The smoothing rule as the design section words it: down when the closest
    previous note is higher, up otherwise. *)
Definition smoothAway (c note : Z) : Z :=
  if 7 <? Z.abs (c - note) then (if note <? c then note - 12 else note + 12) else note.

(** A sequence of random results; calls beyond its end return 0. *)
Definition oracleOf (draws : list U01) : Oracle :=
  fun n => nth n draws (mkU01 0 eq_refl).

Definition noOptions : Options :=
  {| opt_era := None; opt_style := None; opt_artistInfluence := None;
     opt_complexity := None |}.


Definition late80sOptions : Options :=
  {| opt_era := Some Elate80s; opt_style := None; opt_artistInfluence := None;
     opt_complexity := None |}.

Definition seventiesOptions : Options :=
  {| opt_era := Some E70s; opt_style := None; opt_artistInfluence := None;
     opt_complexity := None |}.

Definition mid80sTatsuroOptions : Options :=
  {| opt_era := Some Emid80s; opt_style := None;
     opt_artistInfluence := Some "Tatsuro Yamashita"%string; opt_complexity := None |}.

(** The golden ratio, and the tension value in the words of the design:
    [clamp(0.5 + 0.4 * (1 - |i - peak| / (L / 2)) + noise, 0.3, 0.9)] with
    [peak = floor(L / phi)]. *)
Definition phi : R := ((1 + sqrt 5) / 2)%R.

Definition clampQ (x lo hi : Q) : Q :=
  if Qltb x lo then lo else if Qltb hi x then hi else x.

Definition specTension (L i : nat) (noise : Q) : Q :=
  let peak := Int_part (INR L / phi) in
  clampQ (0.5 + 0.4 * (1 - Qabs (inject_Z (Z.of_nat i) - inject_Z peak)
                             / (inject_Z (Z.of_nat L) / 2)) + noise)
         0.3 0.9.

(** The constants the earlier variant has inline, as a settings record:
    tempo [72 + random * 30], velocity clamped to [60, 100], chord start
    jitter [(random - 0.5) * 0.02]. *)
Definition variantSettings : StyleSetting :=
  {| tempoRange := (72, 102); velocityRange := (60, 100); swingFactor := 0.02 |}%Q.

(** The first entry of the progression catalog. *)
Definition standardTemplate : ProgressionTemplate :=
  {| roots := [0; 5; 3; 4]; weights := ([1; 0.8; 0.7; 0.9])%Q;
     style := "standard"; complexity := 0.7 |}.

(** The exception raised when no voicing passes the era/artist filter. *)
Definition noVoicingError : JsError :=
  TypeError "Cannot read properties of undefined (reading 'intervals')".

(** The only failure the entry point signals. *)
Definition genericFailure : JsError := Error "Failed to generate MIDI file".

(** The name [generateMidiFile] gives a piece. *)
Definition pieceName (options : Options) (now : Z) : string :=
  "citypop-" ++ orElse (option_map eraName (opt_era options)) "standard"
  ++ "-" ++ orElse (option_map styleName (opt_style options)) "uptempo"
  ++ "-" ++ showZ now.

(** What [generateMidiFile] makes of the encoder's verdict on [song]: the
    file with the encoder's bytes, or the encoder's exception. *)
Definition encodedFile (toArray : Encoder) (pname : string) (song : MidiData)
  : Result MidiFile :=
  match toArray song with
  | Ok bytes => Ok {| data := bytes; tempo := header_tempo song; name := pname |}
  | Throw e => Throw e
  end.

(** What the entry point makes of it: the descriptor, or the generic
    failure. *)
Definition encodedDownload (toArray : Encoder) (pname : string) (song : MidiData)
  : Result Download :=
  match toArray song with
  | Ok bytes =>
      Ok {| url := createObjectURL bytes;
            filename := pname ++ "-" ++ showZ (Math_round (header_tempo song))
                        ++ "bpm.mid" |}
  | Throw _ => Throw genericFailure
  end.

(** An encoder to run the model with: it refuses a note that starts before
    time 0 (a MIDI delta time cannot be negative) and otherwise returns the
    pitches as its bytes. It stands for no particular library. *)
Definition sampleEncoder : Encoder :=
  fun song =>
    if forallb (fun ev => Qle_bool 0 (time ev)) (track_notes song)
    then Ok (map midi (track_notes song))
    else Throw (Thrown "negative time").

(** The random source that always returns one half. *)
Definition halves : Oracle := fun _ => mkU01 (1 # 2) eq_refl.

(** [P] holds of the value of [m] whatever the random source returns and
    however many calls were made before. *)
Definition always {A} (m : Rand A) (P : A -> Prop) : Prop :=
  forall (rnd : Oracle) (k : nat), P (fst (m rnd k)).

(** The bass interval in the words of the design: 12 for the 70s era; 24
    or 12 on an even split of the draw [u] for mid-80s; 24 on the lowest
    three tenths of the draw, else 12, otherwise. *)
Definition bassOctaveOf (e : option Era) (u : Q) : Z :=
  match e with
  | Some E70s => 12
  | Some Emid80s => if Qltb u (1 # 2) then 24 else 12
  | _ => if Qltb u (3 # 10) then 24 else 12
  end.

(** What is known of a note event emitted for chord number [i] under the
    settings of the active style: a clamped pitch, a velocity drawn in the
    style's range before the division by 127, a start within the swing and
    jitter of the two-second grid, a duration within its jitter. *)
Definition eventAt (settings : StyleSetting) (t : Q) (ev : NoteEvent) : Prop :=
  0 <= midi ev <= 127
  /\ (exists vel : Q,
        velocity ev = (vel / 127)%Q
        /\ (fst (velocityRange settings) <= vel <= snd (velocityRange settings))%Q)
  /\ (t - swingFactor settings / 2 - 0.005 <= time ev
      <= t + swingFactor settings / 2 + 0.005)%Q
  /\ (1.9 <= duration ev <= 2)%Q.

Definition okEvent (settings : StyleSetting) (i : nat) (ev : NoteEvent) : Prop :=
  eventAt settings (2 * inject_Z (Z.of_nat i)) ev.

(** The track holds the events of exactly [n] chords, in order, each chord
    with at least one note. *)
Definition emitsChords (settings : StyleSetting) (n : nat) (track : list NoteEvent) : Prop :=
  exists chords : list (list NoteEvent),
    length chords = n
    /\ track = concat chords
    /\ forall i c, nth_error chords i = Some c -> c <> [] /\ Forall (okEvent settings i) c.

(** Two pitches an exact number of octaves apart. *)
Definition sameClass (p n : Z) : Prop := (p - n) mod 12 = 0.

(** A note is kept or moved by one octave. *)
Definition octaveStep (n p : Z) : Prop := p = n \/ p = n + 12 \/ p = n - 12.

Definition strictlyAscending (l : list Z) : Prop := StronglySorted Z.lt l.

(** [l'] holds the pitch classes of [l] and no other. *)
Definition sameClasses (l l' : list Z) : Prop :=
  (forall n, In n l -> exists p, In p l' /\ sameClass p n)
  /\ (forall p, In p l' -> exists n, In n l /\ sameClass p n).

(** The catalog template tagged with a style that has one of its own. *)
Definition styleTemplate (sty : Style) : ProgressionTemplate :=
  match sty with
  | ballad =>
      {| roots := [0; 2; 5; 1]; weights := ([1; 0.6; 0.7; 0.8])%Q;
         style := "ballad"; complexity := 0.6 |}
  | fusion =>
      {| roots := [3; 4; 0; 5; 1]; weights := ([0.8; 0.9; 1; 0.7; 0.8])%Q;
         style := "fusion"; complexity := 0.9 |}
  | uptempo => standardTemplate
  end.

Definition mariyaOptions : Options :=
  {| opt_era := None; opt_style := Some ballad;
     opt_artistInfluence := Some "Mariya Takeuchi"%string; opt_complexity := None |}.

Definition tatsuroOptions : Options :=
  {| opt_era := None; opt_style := None;
     opt_artistInfluence := Some "Tatsuro Yamashita"%string; opt_complexity := None |}.

(** * Proofs *)

(** ** The random source *)

Lemma always_ret {A} (a : A) (P : A -> Prop) : P a -> always (ret a) P.
Proof. intros H rnd k. exact H. Qed.

Lemma always_bind {A B} (m : Rand A) (f : A -> Rand B) (P : A -> Prop) (Q : B -> Prop) :
  always m P -> (forall a, P a -> always (f a) Q) -> always (bind m f) Q.
Proof.
  intros Hm Hf rnd k. unfold bind.
  specialize (Hm rnd k). destruct (m rnd k) as [a k']. simpl in Hm.
  apply Hf. exact Hm.
Qed.

Lemma always_weaken {A} (m : Rand A) (P Q : A -> Prop) :
  always m P -> (forall a, P a -> Q a) -> always m Q.
Proof. intros Hm HPQ rnd k. apply HPQ, Hm. Qed.

Lemma always_True {A} (m : Rand A) : always m (fun _ => True).
Proof. intros rnd k. exact I. Qed.

Lemma Qltb_lt (x y : Q) : Qltb x y = true <-> (x < y)%Q.
Proof.
  unfold Qltb. rewrite negb_true_iff. split; intros H.
  - apply Qnot_le_lt. intros Hle. apply Qle_bool_iff in Hle. congruence.
  - destruct (Qle_bool y x) eqn:E; [|reflexivity].
    apply Qle_bool_iff in E. exfalso. exact (Qlt_not_le _ _ H E).
Qed.

Lemma Qltb_ge (x y : Q) : Qltb x y = false <-> (y <= x)%Q.
Proof.
  unfold Qltb. rewrite negb_false_iff. apply Qle_bool_iff.
Qed.

Lemma u_val_range (u : U01) : (0 <= u_val u < 1)%Q.
Proof.
  destruct u as [q Hq]. simpl. unfold in01 in Hq.
  apply andb_true_iff in Hq. destruct Hq as [H0 H1].
  split; [now apply Qle_bool_iff | now apply Qltb_lt].
Qed.

(** [lra] on [Q] does not read divisions: turn the divisions by the
    constants of the program into products. *)
Ltac qdiv :=
  unfold Qdiv in *;
  change (/ 2)%Q with (1 # 2)%Q in *;
  change (/ 8)%Q with (1 # 8)%Q in *;
  change (/ 127)%Q with (1 # 127)%Q in *.

Lemma Qfloor_lt (x : Q) (n : Z) : (x < inject_Z n)%Q -> Qfloor x < n.
Proof.
  intros H. rewrite Zlt_Qlt.
  eapply Qle_lt_trans; [apply Qfloor_le | exact H].
Qed.

Lemma Qfloor_nonneg (x : Q) : (0 <= x)%Q -> 0 <= Qfloor x.
Proof.
  intros H. pose proof (Qlt_floor x) as Hx.
  assert (Hlt : (inject_Z 0 < inject_Z (Qfloor x + 1))%Q).
  { eapply Qle_lt_trans; [exact H | exact Hx]. }
  rewrite <- Zlt_Qlt in Hlt. lia.
Qed.

Lemma always_random : always Math_random (fun r => (0 <= r < 1)%Q).
Proof. intros rnd k. apply u_val_range. Qed.

(** [Math.floor(Math.random() * n)] is a valid index of an [n]-element
    array, for [n > 0]. *)
Lemma always_randomIndex (n : nat) :
  (0 < n)%nat -> always (randomIndex n) (fun idx => (idx < n)%nat).
Proof.
  intros Hn. unfold randomIndex.
  eapply always_bind; [apply always_random|].
  intros r [Hr0 Hr1]. apply always_ret. unfold Math_floor.
  assert (Hlt : (r * inject_Z (Z.of_nat n) < inject_Z (Z.of_nat n))%Q).
  { assert (Hpos : (0 < inject_Z (Z.of_nat n))%Q).
    { rewrite <- (Zlt_Qlt 0). lia. }
    nra. }
  assert (Hnn : (0 <= r * inject_Z (Z.of_nat n))%Q).
  { assert (Hpos : (0 <= inject_Z (Z.of_nat n))%Q).
    { rewrite <- (Zle_Qle 0). lia. }
    nra. }
  pose proof (Qfloor_lt _ _ Hlt). pose proof (Qfloor_nonneg _ Hnn). lia.
Qed.


Lemma always_mapM {A B} (f : A -> Rand B) (P : A -> B -> Prop) (l : list A) :
  (forall a, always (f a) (P a)) ->
  always (mapM f l) (fun bs => Forall2 P l bs).
Proof.
  intros Hf. induction l as [|a t IH]; simpl.
  - apply always_ret. constructor.
  - eapply always_bind; [apply Hf|]. intros b Hb.
    eapply always_bind; [apply IH|]. intros bs Hbs.
    apply always_ret. constructor; assumption.
Qed.

(** ** Voice leading: proofs *)

Lemma closest_fold_isClosest (note : Z) (t pre : list Z) (acc : Z) :
  pre <> [] ->
  isClosest pre note acc ->
  isClosest (pre ++ t) note
    (fold_left (fun prev curr =>
                  if Z.abs (curr - note) <? Z.abs (prev - note) then curr else prev) t acc).
Proof.
  revert pre acc. induction t as [|x t IH]; intros pre acc Hne Hacc; simpl.
  - now rewrite app_nil_r.
  - replace (pre ++ x :: t) with ((pre ++ [x]) ++ t) by now rewrite <- app_assoc.
    apply IH; [now destruct pre|].
    destruct Hacc as (k & Hk & Hmin & Hfirst).
    assert (Hklt : (k < length pre)%nat) by (apply nth_error_Some; congruence).
    destruct (Z.ltb_spec (Z.abs (x - note)) (Z.abs (acc - note))) as [Hlt|Hge].
    + exists (length pre). repeat split.
      * rewrite nth_error_app2, Nat.sub_diag by lia. reflexivity.
      * intros j p Hj.
        destruct (Nat.lt_ge_cases j (length pre)) as [Hjl|Hjl].
        -- rewrite nth_error_app1 in Hj by assumption. specialize (Hmin j p Hj). lia.
        -- rewrite nth_error_app2 in Hj by assumption.
           destruct (j - length pre)%nat as [|[|?]]; simpl in Hj; inversion Hj; subst; lia.
      * intros j p Hjl Hj. rewrite nth_error_app1 in Hj by assumption.
        specialize (Hmin j p Hj). lia.
    + exists k. repeat split.
      * rewrite nth_error_app1 by assumption. assumption.
      * intros j p Hj.
        destruct (Nat.lt_ge_cases j (length pre)) as [Hjl|Hjl].
        -- rewrite nth_error_app1 in Hj by assumption. eauto.
        -- rewrite nth_error_app2 in Hj by assumption.
           destruct (j - length pre)%nat as [|[|?]]; simpl in Hj; inversion Hj; subst; lia.
      * intros j p Hjk Hj. rewrite nth_error_app1 in Hj by lia. eauto.
Qed.

Lemma closest_isClosest (prevNotes : list Z) (note : Z) :
  prevNotes <> [] -> isClosest prevNotes note (closest prevNotes note).
Proof.
  destruct prevNotes as [|p t]; [congruence|]. intros _.
  unfold closest. change (p :: t) with ([p] ++ t).
  apply closest_fold_isClosest; [discriminate|].
  exists O. repeat split.
  - intros [|[|j]] q Hq; simpl in Hq; inversion Hq; subst; lia.
  - intros j q Hj; lia.
Qed.

Lemma isClosest_unique (prevNotes : list Z) (note c c' : Z) :
  isClosest prevNotes note c -> isClosest prevNotes note c' -> c = c'.
Proof.
  intros (k & Hk & Hmin & Hfirst) (k' & Hk' & Hmin' & Hfirst').
  destruct (Nat.lt_trichotomy k k') as [Hlt|[Heq|Hgt]].
  - specialize (Hfirst' k c Hlt Hk). specialize (Hmin k' c' Hk'). lia.
  - subst. congruence.
  - specialize (Hfirst k' c' Hgt Hk'). specialize (Hmin' k c Hk). lia.
Qed.

Lemma smoothNote_smoothTowards (prevNotes : list Z) (note : Z) :
  smoothNote prevNotes note = smoothTowards (closest prevNotes note) note.
Proof.
  unfold smoothNote, smoothTowards.
  rewrite Z.gtb_ltb.
  destruct (7 <? Z.abs (closest prevNotes note - note)); [|reflexivity].
  rewrite Z.gtb_ltb. destruct (note <? closest prevNotes note); reflexivity.
Qed.

(** ** Containers *)

Lemma Set_add_In (x : Z) (s : list Z) : In x (Set_add x s).
Proof.
  unfold Set_add. destruct (existsb (Z.eqb x) s) eqn:E.
  - apply existsb_exists in E. destruct E as (y & Hy & Hxy).
    apply Z.eqb_eq in Hxy. now subst.
  - apply in_or_app. right. now left.
Qed.

Lemma Set_add_incl (x y : Z) (s : list Z) : In y s -> In y (Set_add x s).
Proof.
  unfold Set_add. destruct (existsb (Z.eqb x) s); [trivial|].
  intros H. apply in_or_app. now left.
Qed.

Lemma Set_add_length (x : Z) (s : list Z) : (1 <= length (Set_add x s))%nat.
Proof.
  pose proof (Set_add_In x s) as H.
  destruct (Set_add x s); [destruct H | simpl; lia].
Qed.

Lemma insertAsc_perm (x : Z) (l : list Z) : Permutation (insertAsc x l) (x :: l).
Proof.
  induction l as [|y t IH]; simpl; [reflexivity|].
  destruct (x <? y); [reflexivity|].
  rewrite IH. apply perm_swap.
Qed.

Lemma sortAsc_perm (l : list Z) : Permutation (sortAsc l) l.
Proof.
  unfold sortAsc.
  assert (H : forall acc, Permutation (fold_left (fun a x => insertAsc x a) l acc) (acc ++ l)).
  { induction l as [|x t IH]; intros acc; simpl.
    - now rewrite app_nil_r.
    - rewrite IH, insertAsc_perm. apply Permutation_middle. }
  apply (H []).
Qed.

Lemma sortAsc_length (l : list Z) : length (sortAsc l) = length l.
Proof. apply Permutation_length, sortAsc_perm. Qed.

Lemma sortAsc_In (l : list Z) (x : Z) : In x (sortAsc l) <-> In x l.
Proof.
  split; apply Permutation_in; [apply sortAsc_perm | symmetry; apply sortAsc_perm].
Qed.

Lemma spacingFrom_length (m prev : Z) (l : list Z) : length (spacingFrom m prev l) = length l.
Proof. revert prev. induction l as [|x t IH]; intros prev; simpl; [|rewrite IH]; reflexivity. Qed.

Lemma ensureSpacing_length (m : Z) (l : list Z) : length (ensureSpacing m l) = length l.
Proof. destruct l; simpl; [|rewrite spacingFrom_length]; reflexivity. Qed.

(** ** The set iteration of the "closer voicing" branch terminates within
    its bound: more fuel than [visitBound] changes nothing. *)

Lemma visitBound_app (root : Z) (l l' : list Z) :
  visitBound root (l ++ l') = (visitBound root l + visitBound root l')%nat.
Proof.
  induction l as [|x t IH]; [reflexivity|].
  change (visitBound root ((x :: t) ++ l'))
    with (1 + Z.to_nat (x - root) + visitBound root (t ++ l'))%nat.
  change (visitBound root (x :: t))
    with (1 + Z.to_nat (x - root) + visitBound root t)%nat.
  rewrite IH. lia.
Qed.

Lemma closerVoicing_fuel (fuel : nat) (root : Z) (visited pending : list Z) :
  (visitBound root pending <= fuel)%nat ->
  closerVoicing (S fuel) root visited pending = closerVoicing fuel root visited pending.
Proof.
  revert visited pending. induction fuel as [|f IH]; intros visited pending Hb.
  - destruct pending as [|note rest]; [reflexivity|].
    unfold visitBound in Hb. simpl in Hb. lia.
  - destruct pending as [|note rest]; [reflexivity|].
    change (closerVoicing (S (S f)) root visited (note :: rest))
      with (if (note - root >? 12)
               && negb (existsb (Z.eqb (note - 12)) (visited ++ note :: rest))
            then closerVoicing (S f) root (visited ++ [note]) (rest ++ [note - 12])
            else closerVoicing (S f) root (visited ++ [note]) rest).
    change (closerVoicing (S f) root visited (note :: rest))
      with (if (note - root >? 12)
               && negb (existsb (Z.eqb (note - 12)) (visited ++ note :: rest))
            then closerVoicing f root (visited ++ [note]) (rest ++ [note - 12])
            else closerVoicing f root (visited ++ [note]) rest).
    assert (Hcons : visitBound root (note :: rest)
                    = (1 + Z.to_nat (note - root) + visitBound root rest)%nat)
      by reflexivity.
    rewrite Hcons in Hb.
    destruct (Z.gtb_spec (note - root) 12) as [Hgt|Hle]; simpl.
    + destruct (existsb (Z.eqb (note - 12)) (visited ++ note :: rest)); simpl.
      * apply IH. lia.
      * apply IH. rewrite visitBound_app.
        assert (visitBound root [note - 12] = (1 + Z.to_nat (note - 12 - root))%nat)
          by (unfold visitBound; simpl; lia).
        lia.
    + apply IH. lia.
Qed.

(** ** The spreader keeps every voice *)

Lemma octaveDoubling_length (options : Options) (spread : list Z) :
  always (octaveDoubling options spread)
         (fun out => (length spread <= length out)%nat).
Proof.
  unfold octaveDoubling.
  eapply always_bind; [apply always_True|]. intros [|] _.
  - eapply always_bind; [apply always_True|]. intros idx _.
    apply always_ret. rewrite length_app. simpl. lia.
  - apply always_ret. lia.
Qed.

Lemma pullDown_length (limit : Q) (l : list Z) : length (pullDown limit l) = length l.
Proof. apply length_map. Qed.

Lemma eraAdjust_length (options : Options) (l : list Z) :
  length (eraAdjust options l) = length l.
Proof.
  unfold eraAdjust. destruct (opt_era options) as [[| | |]|];
    try reflexivity; apply pullDown_length.
Qed.

Lemma artistAdjust_length (options : Options) (spread : list Z) :
  always (artistAdjust options spread) (fun out => (length spread <= length out)%nat).
Proof.
  unfold artistAdjust.
  destruct (truthyString (opt_artistInfluence options)); [|apply always_ret; lia].
  destruct (opt_artistInfluence options) as [s|]; [|apply always_ret; lia].
  destruct (String.eqb s "Tatsuro Yamashita").
  - eapply always_bind; [apply always_True|]. intros [|] _; apply always_ret.
    + rewrite length_app. simpl. lia.
    + lia.
  - destruct (String.eqb s "Mariya Takeuchi"); apply always_ret.
    + rewrite pullDown_length. lia.
    + lia.
Qed.

Lemma positionAdjust_length (position : nat) (spread : list Z) :
  always (positionAdjust position spread) (fun out => (length spread <= length out)%nat).
Proof.
  unfold positionAdjust. destruct (0 <? position)%nat; [|apply always_ret; lia].
  eapply always_bind; [apply always_True|]. intros [|] _.
  - eapply always_bind; [apply always_True|]. intros b _.
    apply always_ret. rewrite length_app. simpl. lia.
  - apply always_ret. lia.
Qed.

Lemma spreadBeforeClamp_length (options : Options) (notes : list Z) :
  always (spreadBeforeClamp options notes) (fun out => (length notes <= length out)%nat).
Proof.
  unfold spreadBeforeClamp.
  eapply always_bind; [apply octaveDoubling_length|]. intros s1 H1.
  rewrite ensureSpacing_length, sortAsc_length in H1.
  eapply always_weaken; [apply artistAdjust_length|].
  intros out Hout. rewrite eraAdjust_length in Hout. lia.
Qed.

Lemma spreadVoicing_length (options : Options) (notes : list Z) (position : nat) :
  always (spreadVoicing options notes position)
         (fun out => (length notes <= length out)%nat).
Proof.
  unfold spreadVoicing.
  eapply always_bind; [apply spreadBeforeClamp_length|]. intros s1 H1.
  eapply always_bind; [apply positionAdjust_length|]. intros s2 H2.
  apply always_ret. cbv beta in H1, H2.
  rewrite length_map in H2. rewrite sortAsc_length. lia.
Qed.

(** ** The builder always adds the bass note *)

Lemma Qltb_compat (x y y' : Q) : (y == y')%Q -> Qltb x y = Qltb x y'.
Proof.
  intros E. destruct (Qltb x y') eqn:H.
  - apply Qltb_lt. apply Qltb_lt in H. lra.
  - apply Qltb_ge. apply Qltb_ge in H. lra.
Qed.

Lemma getBassProbability_run (options : Options) (rnd : Oracle) (k : nat) :
  getBassProbability options rnd k
  = (bassOctaveOf (opt_era options) (u_val (rnd k)),
     match opt_era options with Some E70s => k | _ => S k end).
Proof.
  unfold getBassProbability, bassOctaveOf, chance, bind, Math_random, ret.
  destruct (opt_era options) as [[| | |]|]; try reflexivity;
    (rewrite (Qltb_compat _ 0.5 (1 # 2)) by reflexivity)
    || (rewrite (Qltb_compat _ 0.3 (3 # 10)) by reflexivity); reflexivity.
Qed.

Lemma voicingNotes_run (options : Options) (root : Z) (voicing : ExtendedVoicing)
    (cplx : Q) (rnd : Oracle) (k : nat) :
  exists (before : list Z) (k' : nat),
    fst (voicingNotes options root voicing cplx rnd k)
    = Set_add (root - bassOctaveOf (opt_era options) (u_val (rnd k'))) before.
Proof.
  unfold voicingNotes, bind.
  destruct (addIntervals options root (intervals voicing) [] rnd k) as [n1 k1].
  destruct (addTensions options root voicing
              (Z.to_nat (tensionCount options cplx)) n1 rnd k1) as [n2 k2].
  rewrite getBassProbability_run. unfold ret. simpl.
  eexists. exists k2. reflexivity.
Qed.

Lemma createRichVoicing_nonempty (options : Options) (root : Z)
    (voicing : ExtendedVoicing) (cplx : Q) (position : nat) :
  always (createRichVoicing options root voicing cplx position)
         (fun out => (1 <= length out)%nat).
Proof.
  unfold createRichVoicing.
  eapply always_bind with (P := fun notes => (1 <= length notes)%nat).
  - intros rnd k.
    destruct (voicingNotes_run options root voicing cplx rnd k) as (before & k' & E).
    rewrite E. apply Set_add_length.
  - intros notes Hn.
    eapply always_weaken; [apply spreadVoicing_length|].
    intros out Hout. simpl in Hout. lia.
Qed.

Lemma voiceLeading_length (prevNotes notes : list Z) :
  length (voiceLeading prevNotes notes) = length notes.
Proof.
  unfold voiceLeading. destruct (0 <? length prevNotes)%nat; [apply length_map | reflexivity].
Qed.

(** ** One step of the driver *)

Lemma styleSettings_velocityRange (sty : Style) :
  (fst (velocityRange (styleSettings sty)) <= snd (velocityRange (styleSettings sty)))%Q.
Proof. destruct sty; simpl; lra. Qed.

Lemma styleSettings_swing (sty : Style) : (0 <= swingFactor (styleSettings sty))%Q.
Proof. destruct sty; simpl; lra. Qed.

Lemma addNote_event (settings : StyleSetting) (chordStart : Q) (note : Z) :
  (fst (velocityRange settings) <= snd (velocityRange settings))%Q ->
  always (addNote settings chordStart note)
    (fun ev =>
       midi ev = Z.max 0 (Z.min 127 note)
       /\ (exists vel : Q,
             velocity ev = (vel / 127)%Q
             /\ (fst (velocityRange settings) <= vel <= snd (velocityRange settings))%Q)
       /\ (chordStart - 0.005 <= time ev <= chordStart + 0.005)%Q
       /\ (1.9 <= duration ev <= 2)%Q).
Proof.
  intros Hrange. unfold addNote.
  eapply always_bind; [apply always_random|]. intros rv Hrv.
  eapply always_bind; [apply always_random|]. intros rt Hrt.
  eapply always_bind; [apply always_random|]. intros rd Hrd.
  apply always_ret. cbv beta in *. simpl. repeat split; try lra.
  eexists. split; [reflexivity|]. split; nra.
Qed.

Lemma applySwing_range (options : Options) (t : Q) :
  always (applySwing options t)
    (fun c => (t - swingFactor (styleSettings (styleOrDefault options)) / 2 <= c
               <= t + swingFactor (styleSettings (styleOrDefault options)) / 2)%Q).
Proof.
  unfold applySwing.
  eapply always_bind; [apply always_random|]. intros r Hr.
  apply always_ret. cbv beta in *.
  pose proof (styleSettings_swing (styleOrDefault options)) as Hs.
  set (sf := swingFactor (styleSettings (styleOrDefault options))) in *. clearbody sf.
  qdiv. split; nra.
Qed.

Lemma lookupVoicing_key (options : Options) (key : string) :
  In key (voicingKeys options) -> exists v, lookupVoicing (Some key) = Some v.
Proof.
  intros H. unfold voicingKeys in H. apply in_map_iff in H.
  destruct H as ([k v] & Hk & Hin). simpl in Hk. subst k.
  apply filter_In in Hin. destruct Hin as [Hin _].
  simpl in Hin.
  repeat (destruct Hin as [Hin|Hin];
          [inversion Hin; subst; eexists; vm_compute; reflexivity|]).
  destruct Hin.
Qed.

Lemma Forall2_Forall_r {A B} (P : A -> B -> Prop) (Q : B -> Prop) (l : list A) (l' : list B) :
  Forall2 P l l' -> (forall a b, P a b -> Q b) -> Forall Q l'.
Proof.
  intros H HPQ. induction H; constructor; eauto.
Qed.

Lemma chordStep_ok (options : Options) (progression : ProgressionTemplate)
    (arc : list Q) (i : nat) (st : LoopState) :
  voicingKeys options <> [] ->
  always (chordStep options (styleSettings (styleOrDefault options))
                    (Some progression) arc i st)
    (fun r => exists st' events,
         r = Ok st'
         /\ ls_prevNotes st' <> []
         /\ events <> []
         /\ ls_track st' = ls_track st ++ events
         /\ ls_time st' = (ls_time st + 2)%Q
         /\ Forall (eventAt (styleSettings (styleOrDefault options)) (ls_time st)) events).
Proof.
  intros Hkeys. unfold chordStep.
  eapply always_bind.
  { apply always_randomIndex. destruct (voicingKeys options); [congruence | simpl; lia]. }
  intros idx Hidx. cbv beta in Hidx.
  destruct (nth_error (voicingKeys options) idx) as [key|] eqn:Ekey;
    [|apply nth_error_None in Ekey; lia].
  destruct (lookupVoicing_key options key (nth_error_In _ _ Ekey)) as [v Ev].
  rewrite Ev.
  eapply always_bind; [apply createRichVoicing_nonempty|]. intros notes Hnotes.
  eapply always_bind; [apply applySwing_range|]. intros chordStart Hstart.
  eapply always_bind.
  { apply always_mapM. intros note. apply addNote_event, styleSettings_velocityRange. }
  intros events Hev. cbv beta in *.
  apply always_ret.
  pose proof (Forall2_length Hev) as Hlen. rewrite voiceLeading_length in Hlen.
  eexists. exists events. split; [reflexivity|]. simpl. repeat split.
  - intros E. apply (f_equal (@length Z)) in E.
    rewrite voiceLeading_length in E. simpl in E. lia.
  - destruct events; [simpl in Hlen; lia | discriminate].
  - eapply Forall2_Forall_r; [exact Hev|].
    intros note ev (Hm & Hv & Ht & Hd). repeat split; try lia; try lra; try exact Hv.
Qed.

Lemma forLoop_invariant (body : nat -> LoopState -> Rand (Result LoopState))
    (Inv : nat -> LoopState -> Prop) :
  (forall i st, Inv i st ->
                always (body i st) (fun r => exists st', r = Ok st' /\ Inv (S i) st')) ->
  forall count i st,
    Inv i st ->
    always (forLoop body i count st)
           (fun r => exists st', r = Ok st' /\ Inv (i + count)%nat st').
Proof.
  intros Hbody. induction count as [|c IH]; intros i st Hinv; simpl.
  - apply always_ret. exists st. rewrite Nat.add_0_r. auto.
  - eapply always_bind; [apply Hbody; exact Hinv|].
    intros r (st' & -> & Hinv').
    replace (i + S c)%nat with (S i + c)%nat by lia.
    apply IH. exact Hinv'.
Qed.

(** The loop invariant of the driver after [i] iterations. *)
Lemma chordStep_invariant (options : Options) (progression : ProgressionTemplate)
    (arc : list Q) (i : nat) (st : LoopState) :
  voicingKeys options <> [] ->
  (ls_time st == 2 * inject_Z (Z.of_nat i))%Q
  /\ emitsChords (styleSettings (styleOrDefault options)) i (ls_track st) ->
  always (chordStep options (styleSettings (styleOrDefault options))
                    (Some progression) arc i st)
    (fun r => exists st',
         r = Ok st'
         /\ (ls_time st' == 2 * inject_Z (Z.of_nat (S i)))%Q
         /\ emitsChords (styleSettings (styleOrDefault options)) (S i) (ls_track st')).
Proof.
  intros Hkeys (Htime & chords & Hlen & Htrack & Hchords).
  eapply always_weaken; [apply chordStep_ok; exact Hkeys|].
  intros r (st' & events & -> & _ & Hne & Htr & Ht & Hev).
  exists st'. split; [reflexivity|]. split.
  - rewrite Ht, Htime, Nat2Z.inj_succ. unfold Z.succ. rewrite inject_Z_plus. ring.
  - exists (chords ++ [events]). split; [rewrite length_app; simpl; lia|].
    split; [rewrite Htr, Htrack, concat_app; simpl; now rewrite app_nil_r|].
    intros j c Hj.
    destruct (Nat.lt_ge_cases j (length chords)) as [Hlt|Hge].
    + rewrite nth_error_app1 in Hj by assumption. now apply (Hchords j).
    + rewrite nth_error_app2 in Hj by assumption.
      destruct (j - length chords)%nat as [|[|?]] eqn:Ej; simpl in Hj; inversion Hj; subst.
      assert (j = length chords) by lia. subst j.
      split; [exact Hne|].
      eapply Forall_impl; [|exact Hev].
      intros ev (Hm & Hv & Htm & Hd). unfold okEvent.
      repeat split; try lia; try lra; try exact Hv.
Qed.

Lemma selectProgression_some (sty : Style) :
  always (selectProgression sty)
         (fun p => exists t, p = Some t /\ In t (validTemplates sty)).
Proof.
  unfold selectProgression.
  eapply always_bind.
  { apply always_randomIndex. destruct sty; vm_compute; lia. }
  intros idx Hidx. cbv beta in Hidx. apply always_ret.
  destruct (nth_error (validTemplates sty) idx) as [t|] eqn:E.
  - exists t. split; [reflexivity|]. eapply nth_error_In; eassumption.
  - apply nth_error_None in E. lia.
Qed.

Lemma styleSettings_tempoRange (sty : Style) :
  (fst (tempoRange (styleSettings sty)) <= snd (tempoRange (styleSettings sty)))%Q.
Proof. destruct sty; simpl; lra. Qed.

(** The driver up to the encoder: when the loop is known to complete in a
    state satisfying [Inv], the run builds one song, whatever the encoder,
    and ends as the encoder decides on it. *)
Lemma generateMidiFile_loop (Inv : LoopState -> Prop) (options : Options) (now : Z)
    (rnd : Oracle) (k : nat) :
  (forall t arc,
      In t (validTemplates (styleOrDefault options)) ->
      always (forLoop (chordStep options (styleSettings (styleOrDefault options))
                                 (Some t) arc) 0 8 initialState)
             (fun res => exists st, res = Ok st /\ Inv st)) ->
  exists (r : Q) (st : LoopState),
    (0 <= r < 1)%Q
    /\ Inv st
    /\ forall toArray,
         fst (generateMidiFile toArray options now rnd k)
         = encodedFile toArray (pieceName options now)
             {| header_tempo :=
                  (fst (tempoRange (styleSettings (styleOrDefault options)))
                   + r * (snd (tempoRange (styleSettings (styleOrDefault options)))
                          - fst (tempoRange (styleSettings (styleOrDefault options)))))%Q;
                track_notes := ls_track st |}.
Proof.
  intros Hloop. unfold generateMidiFile, bind.
  pose proof (always_random rnd k) as Hr.
  destruct (Math_random rnd k) as [r k1]. simpl in Hr.
  pose proof (selectProgression_some (styleOrDefault options) rnd k1) as Hp.
  destruct (selectProgression (styleOrDefault options) rnd k1) as [p k2]. simpl in Hp.
  destruct Hp as (t & -> & Ht).
  destruct (generateTensionArc 8 rnd k2) as [arc k3].
  pose proof (Hloop t arc Ht rnd k3) as Hl.
  destruct (forLoop (chordStep options (styleSettings (styleOrDefault options))
                               (Some t) arc) 0 8 initialState rnd k3) as [res k4].
  simpl in Hl. destruct Hl as (st & -> & Hinv).
  exists r, st. split; [exact Hr|]. split; [exact Hinv|].
  intros toArray. unfold encodedFile, pieceName.
  destruct (toArray _); reflexivity.
Qed.

Lemma forLoop_emitsChords (options : Options) (t : ProgressionTemplate) (arc : list Q) :
  voicingKeys options <> [] ->
  always (forLoop (chordStep options (styleSettings (styleOrDefault options))
                             (Some t) arc) 0 8 initialState)
         (fun res => exists st,
              res = Ok st
              /\ emitsChords (styleSettings (styleOrDefault options)) 8 (ls_track st)).
Proof.
  intros Hkeys. eapply always_weaken.
  - apply (forLoop_invariant _
             (fun i st => (ls_time st == 2 * inject_Z (Z.of_nat i))%Q
                          /\ emitsChords (styleSettings (styleOrDefault options)) i
                                         (ls_track st))).
    + intros i st Hinv. apply chordStep_invariant; assumption.
    + split; [reflexivity|]. exists []. repeat split; destruct i; discriminate.
  - intros res (st & -> & _ & Hch). exists st. split; [reflexivity | exact Hch].
Qed.

(** Whenever the era/artist filter keeps at least one voicing, the loop
    completes and the run builds a song of exactly 8 chords under a tempo of
    the style's range. The song depends on the configuration and the draws
    only; the run ends as the encoder decides on it. *)
Lemma generateMidiFile_song (options : Options) (now : Z) (rnd : Oracle) (k : nat) :
  voicingKeys options <> [] ->
  exists song,
    emitsChords (styleSettings (styleOrDefault options)) 8 (track_notes song)
    /\ (fst (tempoRange (styleSettings (styleOrDefault options))) <= header_tempo song
        <= snd (tempoRange (styleSettings (styleOrDefault options))))%Q
    /\ forall toArray,
         fst (generateMidiFile toArray options now rnd k)
         = encodedFile toArray (pieceName options now) song.
Proof.
  intros Hkeys.
  destruct (generateMidiFile_loop
              (fun st => emitsChords (styleSettings (styleOrDefault options)) 8
                                     (ls_track st))
              options now rnd k) as (r & st & Hr & Hch & Hrun).
  { intros t arc _. apply forLoop_emitsChords, Hkeys. }
  eexists. split; [|split; [|exact Hrun]].
  - exact Hch.
  - pose proof (styleSettings_tempoRange (styleOrDefault options)) as Ht.
    simpl. split; nra.
Qed.

Lemma encodedFile_Ok (toArray : Encoder) (pname : string) (song : MidiData)
    (file : MidiFile) :
  encodedFile toArray pname song = Ok file ->
  toArray song = Ok (data file) /\ tempo file = header_tempo song /\ name file = pname.
Proof.
  unfold encodedFile. destruct (toArray song) as [bytes|e]; [|discriminate].
  intros H. inversion H; subst file. auto.
Qed.

(** The entry point ends as the encoder decides on the song of
    [generateMidiFile]. *)
Lemma generateAndDownloadMidi_of_file (toArray : Encoder) (options : Options) (now : Z)
    (rnd : Oracle) (k : nat) (pname : string) (song : MidiData) :
  fst (generateMidiFile toArray options now rnd k) = encodedFile toArray pname song ->
  fst (generateAndDownloadMidi toArray options now rnd k)
  = encodedDownload toArray pname song.
Proof.
  intros Hr. unfold generateAndDownloadMidi, bind.
  destruct (generateMidiFile toArray options now rnd k) as [res k']. simpl in Hr. subst res.
  unfold encodedFile, encodedDownload. destruct (toArray song); reflexivity.
Qed.

(** ** Runs with an empty voicing filter *)

Lemma chordStep_no_voicing (options : Options) (settings : StyleSetting)
    (progression : ProgressionTemplate) (arc : list Q) (i : nat) (st : LoopState) :
  voicingKeys options = [] ->
  always (chordStep options settings (Some progression) arc i st)
         (fun r => r = Throw noVoicingError).
Proof.
  intros Hkeys. unfold chordStep. rewrite Hkeys.
  eapply always_bind; [apply always_True|]. intros idx _.
  destruct idx; simpl; apply always_ret; reflexivity.
Qed.

Lemma forLoop_throws_first (body : nat -> LoopState -> Rand (Result LoopState))
    (e : JsError) (i count : nat) (st : LoopState) :
  always (body i st) (fun r => r = Throw e) ->
  always (forLoop body i (S count) st) (fun r => r = Throw e).
Proof.
  intros H. simpl. eapply always_bind; [exact H|].
  intros r ->. apply always_ret. reflexivity.
Qed.

Lemma generateMidiFile_empty_filter (toArray : Encoder) (options : Options) (now : Z) :
  voicingKeys options = [] ->
  always (generateMidiFile toArray options now) (fun r => r = Throw noVoicingError).
Proof.
  intros Hkeys. unfold generateMidiFile.
  eapply always_bind; [apply always_True|]. intros r _.
  eapply always_bind; [apply selectProgression_some|]. intros p (t & -> & _).
  eapply always_bind; [apply always_True|]. intros arc _.
  eapply always_bind.
  { apply forLoop_throws_first. apply chordStep_no_voicing. exact Hkeys. }
  intros res ->. apply always_ret. reflexivity.
Qed.

Lemma string_app_assoc (a b c : string) : ((a ++ b) ++ c = a ++ (b ++ c))%string.
Proof. induction a as [|x a IH]; simpl; [|rewrite IH]; reflexivity. Qed.

(** A returned file: the filter kept a voicing, and the data are the
    encoder's bytes for a track of exactly 8 chords. *)
Lemma generateMidiFile_returned (toArray : Encoder) (options : Options) (now : Z)
    (rnd : Oracle) (k : nat) (file : MidiFile) :
  fst (generateMidiFile toArray options now rnd k) = Ok file ->
  voicingKeys options <> []
  /\ exists song,
       toArray song = Ok (data file)
       /\ header_tempo song = tempo file
       /\ name file = pieceName options now
       /\ emitsChords (styleSettings (styleOrDefault options)) 8 (track_notes song)
       /\ (fst (tempoRange (styleSettings (styleOrDefault options))) <= tempo file
           <= snd (tempoRange (styleSettings (styleOrDefault options))))%Q.
Proof.
  intros Hfile.
  destruct (voicingKeys options) as [|key keys] eqn:Hkeys.
  - pose proof (generateMidiFile_empty_filter toArray options now Hkeys rnd k) as H.
    cbv beta in H. congruence.
  - assert (Hne : voicingKeys options <> []) by (rewrite Hkeys; discriminate).
    rewrite <- Hkeys. split; [exact Hne|].
    destruct (generateMidiFile_song options now rnd k Hne) as (song & Hch & Ht & Hr).
    specialize (Hr toArray). rewrite Hfile in Hr. symmetry in Hr.
    destruct (encodedFile_Ok _ _ _ _ Hr) as (Henc & Htempo & Hname).
    exists song. rewrite Htempo. auto.
Qed.

(** Which configurations the catalog serves. No voicing carries both an era
    and an artist tag, and none is tagged '70s' or 'late80s'. *)
Lemma voicingKeys_era_only (options : Options) (e : Era) :
  opt_era options = Some e ->
  truthyString (opt_artistInfluence options) = false ->
  voicingKeys options
  = match e with
    | Eearly80s => ["maj9"; "min11"]
    | Emid80s => ["maj7_13"]
    | E70s | Elate80s => []
    end%string.
Proof.
  intros He Ha. unfold voicingKeys. rewrite He, Ha. destruct e; reflexivity.
Qed.

Lemma voicingKeys_era_and_artist (options : Options) :
  truthy (opt_era options) = true ->
  truthyString (opt_artistInfluence options) = true ->
  voicingKeys options = [].
Proof.
  intros He Ha. unfold voicingKeys. rewrite Ha.
  destruct (opt_era options) as [e|]; [|discriminate].
  destruct (opt_artistInfluence options) as [s|]; [|discriminate].
  destruct e; reflexivity.
Qed.

Lemma voicingKeys_unfiltered (options : Options) :
  opt_era options = None ->
  truthyString (opt_artistInfluence options) = false ->
  voicingKeys options = map fst voicings.
Proof.
  intros He Ha. unfold voicingKeys. rewrite He, Ha. reflexivity.
Qed.

(** The entry point, when the filter keeps a voicing: it ends as the
    encoder decides on the same song. *)
Lemma generateAndDownloadMidi_song (options : Options) (now : Z) (rnd : Oracle) (k : nat) :
  voicingKeys options <> [] ->
  exists song,
    emitsChords (styleSettings (styleOrDefault options)) 8 (track_notes song)
    /\ (fst (tempoRange (styleSettings (styleOrDefault options))) <= header_tempo song
        <= snd (tempoRange (styleSettings (styleOrDefault options))))%Q
    /\ forall toArray,
         fst (generateMidiFile toArray options now rnd k)
         = encodedFile toArray (pieceName options now) song
         /\ fst (generateAndDownloadMidi toArray options now rnd k)
            = encodedDownload toArray (pieceName options now) song.
Proof.
  intros Hkeys.
  destruct (generateMidiFile_song options now rnd k Hkeys) as (song & Hch & Ht & Hr).
  exists song. split; [exact Hch|]. split; [exact Ht|]. intros toArray.
  split; [apply Hr | apply generateAndDownloadMidi_of_file, Hr].
Qed.

(** ** Claims about the driver and the entry point *)

(** C1 (the code departs from the claim). The claim promises the events of
    exactly 8 chords for every configuration. With the configuration
    [{ era: '70s' }] the era filter keeps no catalog voicing, the first
    iteration reads a property of [undefined], and [generateMidiFile] throws
    before any note event is emitted: no file, and no chord, is produced. *)
Theorem generateMidiFile_seventies_throws (toArray : Encoder) (now : Z) (rnd : Oracle)
    (k : nat) :
  voicingKeys seventiesOptions = []
  /\ fst (generateMidiFile toArray seventiesOptions now rnd k) = Throw noVoicingError.
Proof.
  split; [reflexivity|].
  apply (generateMidiFile_empty_filter toArray seventiesOptions now). reflexivity.
Qed.

(** C2. Whenever [generateMidiFile] throws, [generateAndDownloadMidi]
    signals the one generic failure (a [Result] holds either a descriptor or
    an error, never both); and the error branch is reached: with era
    'late80s' and no artist influence the filtered key list is empty, the
    selection at any index finds no voicing, and every run ends in that
    failure. *)
Theorem generateAndDownloadMidi_rethrows :
  (forall toArray options now rnd k e,
      fst (generateMidiFile toArray options now rnd k) = Throw e ->
      fst (generateAndDownloadMidi toArray options now rnd k) = Throw genericFailure)
  /\ voicingKeys late80sOptions = []
  /\ (forall idx, lookupVoicing (nth_error (voicingKeys late80sOptions) idx) = None)
  /\ (forall toArray now rnd k,
         fst (generateMidiFile toArray late80sOptions now rnd k) = Throw noVoicingError
         /\ fst (generateAndDownloadMidi toArray late80sOptions now rnd k)
            = Throw genericFailure).
Proof.
  assert (Hcatch : forall toArray options now rnd k e,
             fst (generateMidiFile toArray options now rnd k) = Throw e ->
             fst (generateAndDownloadMidi toArray options now rnd k) = Throw genericFailure).
  { intros toArray options now rnd k e H. unfold generateAndDownloadMidi, bind.
    destruct (generateMidiFile toArray options now rnd k) as [res k']. simpl in H.
    subst res. reflexivity. }
  split; [exact Hcatch|]. split; [reflexivity|].
  split; [intros [|idx]; reflexivity|].
  intros toArray now rnd k.
  pose proof (generateMidiFile_empty_filter toArray late80sOptions now eq_refl rnd k) as H.
  cbv beta in H. split; [exact H|]. eapply Hcatch. exact H.
Qed.

(** The first part of C2 at the configuration [{ era: 'late80s' }]. *)
Lemma generateAndDownloadMidi_rethrows_witness :
  fst (generateAndDownloadMidi sampleEncoder late80sOptions 0 (oracleOf []) 0%nat)
  = Throw genericFailure.
Proof.
  apply (proj1 generateAndDownloadMidi_rethrows sampleEncoder late80sOptions 0
               (oracleOf []) 0%nat
               noVoicingError).
  vm_compute. reflexivity.
Defined.

(** C9 (the code departs from the claim). The claim promises a file name
    for every configuration. With [{ era: 'mid80s', artistInfluence:
    'Tatsuro Yamashita' }] no catalog voicing carries both tags, generation
    throws, and the entry point returns no descriptor at all: it signals the
    generic failure. *)
Theorem generateAndDownloadMidi_no_filename (toArray : Encoder) (now : Z) (rnd : Oracle)
    (k : nat) :
  voicingKeys mid80sTatsuroOptions = []
  /\ fst (generateAndDownloadMidi toArray mid80sTatsuroOptions now rnd k)
     = Throw genericFailure.
Proof.
  split; [reflexivity|].
  unfold generateAndDownloadMidi, bind.
  pose proof (generateMidiFile_empty_filter toArray mid80sTatsuroOptions now eq_refl rnd k)
    as H.
  cbv beta in H.
  destruct (generateMidiFile toArray mid80sTatsuroOptions now rnd k) as [res k'].
  simpl in H. subst res. reflexivity.
Qed.

(** ** Claims about voice leading *)




(** C4, as the design section words it, fails: previous chord [60], note
    70. The closest previous note, 60, is not higher than 70 and is 10 > 7
    semitones away; the wording sends the note up to 82, the code sends it
    down to 58. *)
Lemma smoothAway_counterexample :
  closest [60] 70 = 60
  /\ smoothAway (closest [60] 70) 70 = 82
  /\ smoothNote [60] 70 = 58
  /\ smoothNote [60] 70 <> smoothAway (closest [60] 70) 70.
Proof. repeat split. discriminate. Qed.

(** C4, amended. When the minimal distance to the previous chord exceeds 7
    semitones, the note moves one octave up if the closest previous note is
    higher than it and one octave down otherwise: it moves towards the
    closest previous note, and ends strictly nearer to it. *)
Theorem smoothNote_towards_closest (prevNotes : list Z) (note : Z) :
  prevNotes <> [] ->
  7 < Z.abs (closest prevNotes note - note) ->
  smoothNote prevNotes note
  = (if note <? closest prevNotes note then note + 12 else note - 12)
  /\ Z.abs (closest prevNotes note - smoothNote prevNotes note)
     < Z.abs (closest prevNotes note - note).
Proof.
  intros _ Hfar. rewrite smoothNote_smoothTowards. unfold smoothTowards.
  destruct (Z.ltb_spec 7 (Z.abs (closest prevNotes note - note))); [|lia].
  destruct (Z.ltb_spec note (closest prevNotes note)); split; try reflexivity; lia.
Qed.

(** Amended C4 at previous chord [60, 64] and note 50: up to 62. *)
Lemma smoothNote_towards_closest_witness :
  smoothNote [60; 64] 50 = 62 /\ Z.abs (60 - 62) < Z.abs (60 - 50).
Proof.
  apply (smoothNote_towards_closest [60; 64] 50); [discriminate | reflexivity].
Defined.

(** ** Claims about the catalogs and the builder *)




(** ** Claims about the tension arc *)

(** The integer computation of the peak is the floor of [length / phi]. *)
Lemma peakOf_floor (length : nat) : peakOf length = Int_part (INR length / phi).
Proof.
  unfold peakOf. set (l := Z.of_nat length).
  assert (Hl : 0 <= l) by (unfold l; lia).
  set (s := Z.sqrt (5 * l * l)).
  assert (Hs : s * s <= 5 * l * l < (s + 1) * (s + 1)).
  { pose proof (Z.sqrt_spec (5 * l * l)) as H. unfold Z.succ in H. apply H. nia. }
  assert (Hs0 : 0 <= s) by apply Z.sqrt_nonneg.
  set (k := (s - l) / 2).
  assert (Hk : 2 * k <= s - l < 2 * k + 2).
  { unfold k. pose proof (Z_div_mod_eq_full (s - l) 2).
    pose proof (Z.mod_pos_bound (s - l) 2). lia. }
  assert (Hsl : 2 * l <= s) by nia.
  assert (Hlow : (2 * k + l) * (2 * k + l) <= 5 * l * l) by nia.
  assert (Hhigh : 5 * l * l < (2 * k + l + 2) * (2 * k + l + 2)) by nia.
  assert (Hk0 : 0 <= k) by lia.
  apply Int_part_spec.
  rewrite INR_IZR_INZ. fold l.
  apply IZR_le in Hlow. apply IZR_lt in Hhigh. apply IZR_le in Hl. apply IZR_le in Hk0.
  repeat (rewrite mult_IZR in Hlow || rewrite plus_IZR in Hlow).
  repeat (rewrite mult_IZR in Hhigh || rewrite plus_IZR in Hhigh).
  set (a := IZR l) in *. set (K := IZR k) in *.
  assert (Hq : (sqrt 5 * sqrt 5 = 5)%R) by (apply sqrt_sqrt; lra).
  assert (Hq0 : (0 <= sqrt 5)%R) by apply sqrt_pos.
  set (q := sqrt 5) in *.
  assert (Hq2 : (2 < q)%R) by nra.
  assert (Hqa : (0 <= q * a)%R) by (apply Rmult_le_pos; assumption).
  assert (Hqa2 : ((q * a) * (q * a) = 5 * (a * a))%R).
  { transitivity ((q * q) * (a * a))%R; [ring | rewrite Hq; ring]. }
  assert (H1 : (2 * K + a <= q * a)%R).
  { apply Rnot_lt_le. intros Hc.
    assert (((q * a) * (q * a) < (2 * K + a) * (2 * K + a))%R)
      by (apply Rmult_le_0_lt_compat; assumption).
    lra. }
  assert (H2 : (q * a < 2 * K + a + 2)%R).
  { apply Rnot_le_lt. intros Hc.
    assert (((2 * K + a + 2) * (2 * K + a + 2) <= (q * a) * (q * a))%R)
      by (apply Rmult_le_compat; lra).
    lra. }
  unfold phi. fold q.
  assert (Hx : (a / ((1 + q) / 2) * (1 + q) = 2 * a)%R) by (field; lra).
  set (x := (a / ((1 + q) / 2))%R) in *.
  split; nra.
Qed.

Lemma mapM_random_nth {B} (g : nat -> Q -> B) (l : list nat) (rnd : Oracle) (k : nat) :
  snd (mapM (fun i => r <- Math_random ;; ret (g i r)) l rnd k) = (k + length l)%nat
  /\ length (fst (mapM (fun i => r <- Math_random ;; ret (g i r)) l rnd k)) = length l
  /\ forall j i d,
       nth_error l j = Some i ->
       nth j (fst (mapM (fun i => r <- Math_random ;; ret (g i r)) l rnd k)) d
       = g i (u_val (rnd (k + j)%nat)).
Proof.
  revert k. induction l as [|a t IH]; intros k.
  - simpl. split; [lia|]. split; [reflexivity|]. intros [|j] i d H; discriminate.
  - specialize (IH (S k)). destruct IH as (IH1 & IH2 & IH3).
    assert (E : mapM (fun i => r <- Math_random ;; ret (g i r)) (a :: t) rnd k
                = (g a (u_val (rnd k))
                     :: fst (mapM (fun i => r <- Math_random ;; ret (g i r)) t rnd (S k)),
                   snd (mapM (fun i => r <- Math_random ;; ret (g i r)) t rnd (S k)))).
    { cbn [mapM]. unfold bind, Math_random, ret.
      destruct (mapM _ t rnd (S k)). reflexivity. }
    rewrite E. cbn [fst snd length]. split; [lia|]. split; [now rewrite IH2|].
    intros [|j] i d H; simpl in H.
    + inversion H; subst. simpl. now rewrite Nat.add_0_r.
    + simpl. rewrite (IH3 j i d H). f_equal. f_equal. f_equal. lia.
Qed.

Lemma clamp_model_spec (x : Q) :
  (Qmaxq 0.3 (Qminq 0.9 x) == clampQ x (3 # 10) (9 # 10))%Q
  /\ (0.3 <= Qmaxq 0.3 (Qminq 0.9 x) <= 0.9)%Q.
Proof.
  unfold Qmaxq, Qminq, clampQ.
  destruct (Qle_bool 0.9 x) eqn:E1.
  - apply Qle_bool_iff in E1.
    replace (Qle_bool 0.3 0.9) with true by reflexivity.
    destruct (Qltb x (3 # 10)) eqn:E2; [apply Qltb_lt in E2; lra|].
    destruct (Qltb (9 # 10) x) eqn:E3; [|apply Qltb_ge in E3]; split; lra.
  - assert (Hx : (x < 0.9)%Q).
    { apply Qnot_le_lt. intros H. apply Qle_bool_iff in H. congruence. }
    destruct (Qle_bool 0.3 x) eqn:E2.
    + apply Qle_bool_iff in E2.
      destruct (Qltb x (3 # 10)) eqn:E3; [apply Qltb_lt in E3; lra|].
      destruct (Qltb (9 # 10) x) eqn:E4; [apply Qltb_lt in E4; lra|]. split; lra.
    + assert (Hx' : (x < 0.3)%Q).
      { apply Qnot_le_lt. intros H. apply Qle_bool_iff in H. congruence. }
      destruct (Qltb x (3 # 10)) eqn:E3; [|apply Qltb_ge in E3; lra]. split; lra.
Qed.

(** C6. For every length [L], [generateTensionArc] returns [L] values; the
    value at step [i] is the clamp to [0.3, 0.9] of
    [0.5 + 0.4 * (1 - |i - peak| / (L / 2)) + noise], where [peak] is the
    floor of [L / phi] and [noise = (u - 0.5) * 0.2] for the [i]-th draw [u]
    of the call, a number of [-0.1, 0.1]; every value lies in [0.3, 0.9]. *)
Theorem generateTensionArc_values (L : nat) (rnd : Oracle) (k : nat) :
  length (fst (generateTensionArc L rnd k)) = L
  /\ forall i : nat,
       (i < L)%nat ->
       let v := nth i (fst (generateTensionArc L rnd k)) 0%Q in
       let noise := ((u_val (rnd (k + i)%nat) - 0.5) * 0.2)%Q in
       (- (1 # 10) <= noise <= 1 # 10)%Q
       /\ (v == specTension L i noise)%Q
       /\ (3 # 10 <= v <= 9 # 10)%Q.
Proof.
  unfold generateTensionArc.
  destruct (mapM_random_nth (tensionAt L (peakOf L)) (seq 0 L) rnd k) as (_ & Hlen & Hnth).
  rewrite length_seq in Hlen. split; [exact Hlen|].
  intros i Hi. cbv zeta.
  rewrite (Hnth i i 0%Q)
    by (rewrite nth_error_seq; destruct (Nat.ltb_spec i L); [reflexivity | lia]).
  pose proof (u_val_range (rnd (k + i)%nat)) as Hu.
  set (noise := ((u_val (rnd (k + i)%nat) - 0.5) * 0.2)%Q).
  split; [unfold noise; split; lra|].
  unfold tensionAt, specTension. rewrite <- peakOf_floor.
  fold noise.
  destruct (clamp_model_spec
              (0.5 + 0.4 * (1 - Qabs (inject_Z (Z.of_nat i) - inject_Z (peakOf L))
                                 / (inject_Z (Z.of_nat L) / 2)) + noise)) as [Heq Hb].
  split; [exact Heq | lra].
Qed.

(** C6 at length 8, step 4 (the peak), all draws 0. *)
Lemma generateTensionArc_values_witness :
  let v := nth 4 (fst (generateTensionArc 8 (oracleOf []) 0%nat)) 0%Q in
  (v == specTension 8 4 (((0 - 0.5) * 0.2)%Q))%Q /\ (3 # 10 <= v <= 9 # 10)%Q.
Proof.
  destruct (proj2 (generateTensionArc_values 8 (oracleOf []) 0%nat) 4%nat) as (_ & H1 & H2).
  - repeat constructor.
  - split; [exact H1 | exact H2].
Defined.

(** ** Claims about the spreader *)







Lemma rangeClamp_range (p : Z) :
  24 <= p <= 96 -> 36 <= rangeClamp p <= 84 /\ rangeClamp (rangeClamp p) = rangeClamp p.
Proof.
  intros Hp. unfold rangeClamp.
  destruct (Z.ltb_spec p 36).
  - assert (E1 : (p + 12 <? 36) = false) by (apply Z.ltb_ge; lia).
    assert (E2 : (p + 12 >? 84) = false) by (rewrite Z.gtb_ltb; apply Z.ltb_ge; lia).
    rewrite E1, E2. lia.
  - rewrite Z.gtb_ltb. destruct (Z.ltb_spec 84 p).
    + assert (E1 : (p - 12 <? 36) = false) by (apply Z.ltb_ge; lia).
      assert (E2 : (p - 12 >? 84) = false) by (rewrite Z.gtb_ltb; apply Z.ltb_ge; lia).
      rewrite E1, E2. lia.
    + assert (E1 : (p <? 36) = false) by (apply Z.ltb_ge; lia).
      assert (E2 : (84 <? p) = false) by (apply Z.ltb_ge; lia).
      rewrite E1, Z.gtb_ltb, E2. lia.
Qed.

Lemma positionAdjust_cases (position : nat) (spread : list Z) :
  always (positionAdjust position spread)
    (fun out =>
       out = spread
       \/ ((0 < position)%nat
           /\ (out = spread ++ [Math_max spread + 12]
               \/ out = spread ++ [Math_max spread + 7]))).
Proof.
  unfold positionAdjust. destruct (Nat.ltb_spec 0 position); [|apply always_ret; now left].
  eapply always_bind; [apply always_True|]. intros [|] _.
  - eapply always_bind; [apply always_True|]. intros [|] _; apply always_ret; right; auto.
  - apply always_ret. now left.
Qed.

(** C5, as stated, fails. The note set built at step 4 on root 60 from the
    voicing [maj7_13] (no tension added, bass 48) is spread without doubling
    (first draw 1/2), the position draw (0 < 4/8) appends the top note plus
    12 after the range map, and 93 is returned: above 84, and moved by a
    further pass of the range map. *)
Lemma spreadVoicing_counterexample :
  let out := fst (spreadVoicing noOptions [60; 64; 67; 71; 81; 48] 4
                    (oracleOf [mkU01 (1 # 2) eq_refl; mkU01 0 eq_refl; mkU01 0 eq_refl])
                    0%nat) in
  (exists voicing,
      lookupVoicing (Some "maj7_13"%string) = Some voicing
      /\ fst (voicingNotes noOptions 60 voicing (0.9 * 0.7)
                           (oracleOf [mkU01 (9 # 10) eq_refl; mkU01 (1 # 2) eq_refl]) 0%nat)
         = [60; 64; 67; 71; 81; 48])
  /\ out = [48; 60; 64; 67; 71; 81; 93]
  /\ map rangeClamp out <> out
  /\ ~ (forall p, In p out -> 36 <= p <= 84).
Proof.
  cbv zeta. split; [eexists; split; vm_compute; reflexivity|].
  assert (E : fst (spreadVoicing noOptions [60; 64; 67; 71; 81; 48] 4
                     (oracleOf [mkU01 (1 # 2) eq_refl; mkU01 0 eq_refl; mkU01 0 eq_refl])
                     0%nat)
              = [48; 60; 64; 67; 71; 81; 93]) by (vm_compute; reflexivity).
  rewrite E. split; [reflexivity|]. split; [discriminate|].
  intros H. specialize (H 93). simpl in H. lia.
Qed.

(** C5, amended. When every pitch that enters the range map lies in
    [24, 96], every pitch that leaves it lies in [36, 84] and a second pass
    of the map changes nothing. The returned sequence is a rearrangement of
    those pitches and of at most one more pitch, appended after the map when
    the position is positive (the top pitch plus 12 or plus 7), which is not
    mapped; at position 0 the returned sequence itself lies in [36, 84] and
    is left unchanged by the map. *)
Theorem spreadVoicing_range_map (options : Options) (notes : list Z) (position : nat)
    (rnd : Oracle) (k : nat) :
  notes <> [] ->
  (forall p, In p (fst (spreadBeforeClamp options notes rnd k)) -> 24 <= p <= 96) ->
  let clamped := map rangeClamp (fst (spreadBeforeClamp options notes rnd k)) in
  let out := fst (spreadVoicing options notes position rnd k) in
  (forall p, In p clamped -> 36 <= p <= 84)
  /\ map rangeClamp clamped = clamped
  /\ (exists extra,
         Permutation out (clamped ++ extra)
         /\ (extra = []
             \/ ((0 < position)%nat
                 /\ (extra = [Math_max clamped + 12] \/ extra = [Math_max clamped + 7]))))
  /\ (position = 0%nat ->
      map rangeClamp out = out /\ forall p, In p out -> 36 <= p <= 84).
Proof.
  intros _ Hpre. cbv zeta. unfold spreadVoicing, bind.
  destruct (spreadBeforeClamp options notes rnd k) as [pre k1]. simpl in Hpre. simpl fst.
  assert (Hin : forall p, In p (map rangeClamp pre) -> 36 <= p <= 84 /\ rangeClamp p = p).
  { intros p Hp. apply in_map_iff in Hp. destruct Hp as (p0 & <- & Hp0).
    apply rangeClamp_range, Hpre, Hp0. }
  assert (Hfix : forall l, (forall p, In p l -> rangeClamp p = p) -> map rangeClamp l = l).
  { intros l Hl. rewrite <- (map_id l) at 2. apply map_ext_in. exact Hl. }
  pose proof (positionAdjust_cases position (map rangeClamp pre) rnd k1) as Hpos.
  destruct (positionAdjust position (map rangeClamp pre) rnd k1) as [s2 k2].
  simpl in Hpos. simpl.
  split; [intros p Hp; apply Hin, Hp|].
  split; [apply Hfix; intros p Hp; apply Hin, Hp|].
  split.
  - destruct Hpos as [-> | (Hp & [-> | ->])].
    + exists []. split; [rewrite app_nil_r; apply sortAsc_perm | now left].
    + eexists. split; [apply sortAsc_perm | right; auto].
    + eexists. split; [apply sortAsc_perm | right; auto].
  - intros ->. destruct Hpos as [-> | (Hp & _)]; [|lia].
    split.
    + apply Hfix. intros p Hp. apply Hin, sortAsc_In, Hp.
    + intros p Hp. apply Hin, sortAsc_In, Hp.
Qed.

(** Amended C5 at position 0 on the note set of a [maj9] chord on root 60
    with bass 36. *)
Lemma spreadVoicing_range_map_witness :
  let out := fst (spreadVoicing noOptions [60; 64; 67; 71; 74; 36] 0 (oracleOf []) 0%nat) in
  map rangeClamp out = out /\ forall p, In p out -> 36 <= p <= 84.
Proof.
  apply (spreadVoicing_range_map noOptions [60; 64; 67; 71; 74; 36] 0 (oracleOf []) 0%nat).
  - discriminate.
  - vm_compute. intros p H. repeat (destruct H as [H|H]; [subst p; split; discriminate|]).
    destruct H.
  - reflexivity.
Defined.

(** ** The earlier variant *)

Lemma variant_spreadBeforeClamp_length (notes : list Z) :
  always (SailorMoonGene.spreadBeforeClamp notes)
         (fun out => (length notes <= length out)%nat).
Proof.
  unfold SailorMoonGene.spreadBeforeClamp.
  eapply always_bind; [apply always_True|]. intros [|] _.
  - eapply always_bind; [apply always_True|]. intros idx _. apply always_ret.
    rewrite length_app, ensureSpacing_length, sortAsc_length. simpl. lia.
  - apply always_ret. rewrite ensureSpacing_length, sortAsc_length. lia.
Qed.

Lemma variant_createRichVoicing_nonempty (root : Z)
    (voicing : SailorMoonGene.ExtendedVoicing) (cplx : Q) (position : nat) :
  always (SailorMoonGene.createRichVoicing root voicing cplx position)
         (fun out => (1 <= length out)%nat).
Proof.
  unfold SailorMoonGene.createRichVoicing.
  eapply always_bind; [apply always_True|]. intros n1 _.
  eapply always_bind; [apply always_True|]. intros alter _.
  eapply always_bind; [apply always_True|]. intros n2 _.
  eapply always_bind; [apply always_True|]. intros deep _.
  unfold SailorMoonGene.spreadVoicing.
  eapply always_bind; [apply variant_spreadBeforeClamp_length|]. intros s1 H1.
  apply always_ret. cbv beta in H1.
  rewrite sortAsc_length, length_map.
  pose proof (Set_add_length (root - (if deep then 24 else 12)) n2). lia.
Qed.

Lemma variant_addNote_event (chordStart : Q) (note : Z) :
  always (SailorMoonGene.addNote chordStart note)
    (fun ev =>
       midi ev = Z.max 0 (Z.min 127 note)
       /\ (exists vel : Q, velocity ev = (vel / 127)%Q /\ (60 <= vel <= 100)%Q)
       /\ (chordStart - 0.005 <= time ev <= chordStart + 0.005)%Q
       /\ (1.9 <= duration ev <= 2)%Q).
Proof.
  unfold SailorMoonGene.addNote.
  eapply always_bind; [apply always_random|]. intros rv Hrv.
  eapply always_bind; [apply always_random|]. intros rt Hrt.
  eapply always_bind; [apply always_random|]. intros rd Hrd.
  apply always_ret. cbv beta in *. simpl. repeat split; try lra.
  eexists. split; [reflexivity|].
  unfold Qminq, Qmaxq.
  destruct (Qle_bool 60 (85 + (rv - 0.5) * 20)) eqn:E1.
  - destruct (Qle_bool 100 (85 + (rv - 0.5) * 20)) eqn:E2.
    + split; lra.
    + apply Qle_bool_iff in E1. split; lra.
  - replace (Qle_bool 100 60) with false by reflexivity. split; lra.
Qed.

Lemma variant_lookupVoicing_key (key : string) :
  In key SailorMoonGene.voicingKeys ->
  exists v, SailorMoonGene.lookupVoicing (Some key) = Some v.
Proof.
  intros H. unfold SailorMoonGene.voicingKeys in H. simpl in H.
  repeat (destruct H as [H|H]; [subst key; eexists; vm_compute; reflexivity|]).
  destruct H.
Qed.

Lemma variant_chordStep_invariant (progression : SailorMoonGene.ProgressionTemplate)
    (arc : list Q) (i : nat) (st : LoopState) :
  (ls_time st == 2 * inject_Z (Z.of_nat i))%Q
  /\ emitsChords variantSettings i (ls_track st) ->
  always (SailorMoonGene.chordStep (Some progression) arc i st)
    (fun r => exists st',
         r = Ok st'
         /\ (ls_time st' == 2 * inject_Z (Z.of_nat (S i)))%Q
         /\ emitsChords variantSettings (S i) (ls_track st')).
Proof.
  intros (Htime & chords & Hlen & Htrack & Hchords).
  unfold SailorMoonGene.chordStep.
  eapply always_bind; [apply always_randomIndex; vm_compute; lia|].
  intros idx Hidx. cbv beta in Hidx.
  destruct (nth_error SailorMoonGene.voicingKeys idx) as [key|] eqn:Ekey;
    [|apply nth_error_None in Ekey; lia].
  destruct (variant_lookupVoicing_key key (nth_error_In _ _ Ekey)) as [v Ev].
  rewrite Ev.
  eapply always_bind; [apply variant_createRichVoicing_nonempty|]. intros notes Hnotes.
  eapply always_bind; [apply always_random|]. intros r Hr.
  eapply always_bind; [apply always_mapM; intros note; apply variant_addNote_event|].
  intros events Hev. cbv beta in *. apply always_ret.
  pose proof (Forall2_length Hev) as Hl. rewrite voiceLeading_length in Hl.
  eexists. split; [reflexivity|]. cbn [ls_time ls_track ls_prevNotes]. split.
  - rewrite Htime, Nat2Z.inj_succ. unfold Z.succ. rewrite inject_Z_plus. ring.
  - exists (chords ++ [events]). split; [rewrite length_app; simpl; lia|].
    split; [rewrite Htrack, concat_app; simpl; now rewrite app_nil_r|].
    intros j c Hj.
    destruct (Nat.lt_ge_cases j (length chords)) as [Hlt|Hge].
    + rewrite nth_error_app1 in Hj by assumption. now apply (Hchords j).
    + rewrite nth_error_app2 in Hj by assumption.
      destruct (j - length chords)%nat as [|[|?]] eqn:Ej; simpl in Hj; inversion Hj; subst.
      assert (j = length chords) by lia. subst j. split.
      * destruct c; [simpl in Hl; lia | discriminate].
      * eapply Forall2_Forall_r; [exact Hev|].
        intros note ev (Hm & Hv & Ht & Hd). unfold okEvent, eventAt, variantSettings. simpl.
        qdiv. repeat split; try lia; try lra; try exact Hv.
Qed.

Lemma variant_forLoop_emitsChords (p : SailorMoonGene.ProgressionTemplate)
    (arc : list Q) :
  always (forLoop (SailorMoonGene.chordStep (Some p) arc) 0 8 initialState)
         (fun res => exists st,
              res = Ok st /\ emitsChords variantSettings 8 (ls_track st)).
Proof.
  eapply always_weaken.
  - apply (forLoop_invariant _
             (fun i st => (ls_time st == 2 * inject_Z (Z.of_nat i))%Q
                          /\ emitsChords variantSettings i (ls_track st))).
    + intros i st Hinv. apply variant_chordStep_invariant. exact Hinv.
    + split; [reflexivity|]. exists []. repeat split; destruct i; discriminate.
  - intros res (st & -> & _ & Hch). exists st. split; [reflexivity | exact Hch].
Qed.

(** The variant takes no configuration and its loop always completes:
    every run builds a song of exactly 8 chords, each with at least one
    note and every pitch in [0, 127], under a tempo in [72, 102]. The song
    does not depend on the encoder, and the entry point ends as the encoder
    decides on it: with the encoder's bytes under the file name
    [citypop-progression-<token>-<rounded tempo>bpm.mid], or, when the
    encoder throws, with the generic failure. *)
Lemma variant_generateAndDownloadMidi_encodes (now : Z) (rnd : Oracle) (k : nat) :
  exists song : MidiData,
    emitsChords variantSettings 8 (track_notes song)
    /\ (72 <= header_tempo song <= 102)%Q
    /\ forall toArray,
         fst (SailorMoonGene.generateAndDownloadMidi toArray now rnd k)
         = encodedDownload toArray ("citypop-progression-" ++ showZ now) song.
Proof.
  unfold SailorMoonGene.generateAndDownloadMidi, SailorMoonGene.generateMidiFile, bind.
  pose proof (always_random rnd k) as Hr.
  destruct (Math_random rnd k) as [r k1]. simpl in Hr.
  pose proof (always_randomIndex 4 ltac:(lia) rnd k1) as Hidx.
  change (length SailorMoonGene.progressionTemplates) with 4%nat.
  destruct (randomIndex 4 rnd k1) as [idx k2]. simpl in Hidx.
  destruct (nth_error SailorMoonGene.progressionTemplates idx) as [p|] eqn:Ep;
    [|apply nth_error_None in Ep; simpl in Ep; lia].
  destruct (generateTensionArc 8 rnd k2) as [arc k3].
  pose proof (variant_forLoop_emitsChords p arc rnd k3) as Hl.
  destruct (forLoop (SailorMoonGene.chordStep (Some p) arc) 0 8 initialState rnd k3)
    as [res k4].
  simpl in Hl. destruct Hl as (st & -> & Hch).
  exists {| header_tempo := (72 + r * 30)%Q; track_notes := ls_track st |}.
  split; [exact Hch|]. split; [simpl; split; lra|].
  intros toArray. unfold encodedDownload.
  destruct (toArray _); reflexivity.
Qed.

(** The variant's spreader also returns pitches above 84: root 65 with the
    voicing [min11], tension 22 and bass 53, the doubling draw picking the
    top note 87. *)
Lemma variant_spreadVoicing_counterexample :
  let out := fst (SailorMoonGene.spreadVoicing [65; 68; 72; 75; 79; 82; 87; 53] 1
                    (oracleOf [mkU01 0 eq_refl; mkU01 (9 # 10) eq_refl]) 0%nat) in
  out = [53; 65; 68; 72; 75; 75; 79; 82; 87]
  /\ map rangeClamp out <> out.
Proof. vm_compute. split; [reflexivity | discriminate]. Qed.

(** In the variant the range map is the last step before the final sort:
    when every pitch entering it lies in [24, 96], every returned pitch
    lies in [36, 84] and a further pass of the map changes nothing. *)
Lemma variant_spreadVoicing_range_map (notes : list Z) (position : nat)
    (rnd : Oracle) (k : nat) :
  (forall p, In p (fst (SailorMoonGene.spreadBeforeClamp notes rnd k)) -> 24 <= p <= 96) ->
  let out := fst (SailorMoonGene.spreadVoicing notes position rnd k) in
  map rangeClamp out = out /\ forall p, In p out -> 36 <= p <= 84.
Proof.
  intros Hpre. cbv zeta. unfold SailorMoonGene.spreadVoicing, bind.
  destruct (SailorMoonGene.spreadBeforeClamp notes rnd k) as [pre k1].
  simpl in *.
  assert (Hin : forall p, In p (sortAsc (map rangeClamp pre)) ->
                          36 <= p <= 84 /\ rangeClamp p = p).
  { intros p Hp. apply sortAsc_In, in_map_iff in Hp. destruct Hp as (p0 & <- & Hp0).
    apply rangeClamp_range, Hpre, Hp0. }
  split.
  - rewrite <- (map_id (sortAsc (map rangeClamp pre))) at 2.
    apply map_ext_in. intros p Hp. apply Hin, Hp.
  - intros p Hp. apply Hin, Hp.
Qed.

(** * Further properties of the code *)

(** ** Which configurations run *)

Lemma generateAndDownloadMidi_empty_filter (toArray : Encoder) (options : Options)
    (now : Z) :
  voicingKeys options = [] ->
  always (generateAndDownloadMidi toArray options now) (fun r => r = Throw genericFailure).
Proof.
  intros Hkeys. unfold generateAndDownloadMidi.
  eapply always_bind; [apply generateMidiFile_empty_filter; exact Hkeys|].
  intros r ->. apply always_ret. reflexivity.
Qed.

(** A run of [generateMidiFile] whose era/artist filter keeps a voicing
    completes its loop: it builds a song that holds the events of exactly 8
    chords, each with at least one note, every pitch in [0, 127], every
    velocity drawn in the style's range, under a tempo inside the style's
    tempo range. The song does not depend on the encoder. The run returns
    the encoder's bytes for it, with that tempo, or throws what the encoder
    throws. *)
Theorem run_emits_eight_chords (options : Options) (now : Z) (rnd : Oracle) (k : nat) :
  voicingKeys options <> [] ->
  exists song,
    emitsChords (styleSettings (styleOrDefault options)) 8 (track_notes song)
    /\ (fst (tempoRange (styleSettings (styleOrDefault options))) <= header_tempo song
        <= snd (tempoRange (styleSettings (styleOrDefault options))))%Q
    /\ (forall toArray,
           fst (generateMidiFile toArray options now rnd k)
           = encodedFile toArray (pieceName options now) song)
    /\ (forall toArray file,
           fst (generateMidiFile toArray options now rnd k) = Ok file ->
           toArray song = Ok (data file) /\ tempo file = header_tempo song).
Proof.
  intros Hkeys.
  destruct (generateMidiFile_song options now rnd k Hkeys) as (song & Hch & Ht & Hr).
  exists song. split; [exact Hch|]. split; [exact Ht|]. split; [exact Hr|].
  intros toArray file Hfile. specialize (Hr toArray). rewrite Hfile in Hr.
  symmetry in Hr. destruct (encodedFile_Ok _ _ _ _ Hr) as (Henc & Htempo & _). auto.
Qed.

Lemma run_emits_eight_chords_witness :
  exists song,
    emitsChords (styleSettings uptempo) 8 (track_notes song)
    /\ (120 <= header_tempo song <= 135)%Q
    /\ (forall toArray,
           fst (generateMidiFile toArray tatsuroOptions 0 halves 0%nat)
           = encodedFile toArray (pieceName tatsuroOptions 0) song)
    /\ (forall toArray file,
           fst (generateMidiFile toArray tatsuroOptions 0 halves 0%nat) = Ok file ->
           toArray song = Ok (data file) /\ tempo file = header_tempo song).
Proof.
  apply (run_emits_eight_chords tatsuroOptions 0 halves 0%nat). discriminate.
Defined.

(** [generateMidiFile] raises two exceptions only: the [TypeError] of the
    undefined voicing, on every run of a configuration whose filter is
    empty, and whatever the encoder throws on the song of a completed loop.
    Which of the two stages a run reaches is decided by the configuration
    alone, not by the draws; past the filter, the encoder's verdict on the
    song is the run's. *)
Theorem run_outcome_decided_by_filter (options : Options) (now : Z) (rnd : Oracle)
    (k : nat) :
  (voicingKeys options = []
   /\ forall toArray,
        fst (generateMidiFile toArray options now rnd k) = Throw noVoicingError)
  \/ (voicingKeys options <> []
      /\ exists song,
           forall toArray,
             (exists bytes,
                 toArray song = Ok bytes
                 /\ fst (generateMidiFile toArray options now rnd k)
                    = Ok {| data := bytes; tempo := header_tempo song;
                            name := pieceName options now |})
             \/ (exists e,
                    toArray song = Throw e
                    /\ fst (generateMidiFile toArray options now rnd k) = Throw e)).
Proof.
  destruct (voicingKeys options) as [|key keys] eqn:Hkeys.
  - left. split; [reflexivity|]. intros toArray.
    apply (generateMidiFile_empty_filter toArray options now Hkeys).
  - right. split; [discriminate|].
    assert (Hne : voicingKeys options <> []) by (rewrite Hkeys; discriminate).
    destruct (generateMidiFile_song options now rnd k Hne) as (song & _ & _ & Hr).
    exists song. intros toArray. rewrite (Hr toArray). unfold encodedFile.
    destruct (toArray song) as [bytes|e].
    + left. exists bytes. split; reflexivity.
    + right. exists e. split; reflexivity.
Qed.

(** Not every run past the filter returns. The first chord starts at
    [(random - 0.5) * swingFactor] plus the jitter of each note, which is
    negative for small draws: with no configuration and every draw 0 the
    song's first notes start at -0.205 seconds. An encoder that refuses a
    negative start time then makes [generateMidiFile] throw, and the entry
    point, here and in the earlier variant, signals the generic failure. *)
Lemma negative_start_time_fails :
  fst (generateMidiFile sampleEncoder noOptions 0 (oracleOf []) 0%nat)
  = Throw (Thrown "negative time")
  /\ fst (generateAndDownloadMidi sampleEncoder noOptions 0 (oracleOf []) 0%nat)
     = Throw genericFailure
  /\ fst (SailorMoonGene.generateAndDownloadMidi sampleEncoder 0 (oracleOf []) 0%nat)
     = Throw genericFailure.
Proof. vm_compute. repeat split; reflexivity. Qed.

(** Every configuration that names the era '70s' or 'late80s', or that sets
    an era together with a non-empty artist influence, makes the entry point
    fail on every run: the catalog has no voicing for it. *)
Theorem unserved_configurations_fail (toArray : Encoder) (options : Options) (now : Z)
    (rnd : Oracle) (k : nat) :
  opt_era options = Some E70s
  \/ opt_era options = Some Elate80s
  \/ (truthy (opt_era options) = true
      /\ truthyString (opt_artistInfluence options) = true) ->
  voicingKeys options = []
  /\ fst (generateAndDownloadMidi toArray options now rnd k) = Throw genericFailure.
Proof.
  intros H.
  assert (Hkeys : voicingKeys options = []).
  { destruct (truthyString (opt_artistInfluence options)) eqn:Ha.
    - apply voicingKeys_era_and_artist; [|exact Ha].
      destruct H as [-> | [-> | [He _]]]; auto.
    - destruct H as [He | [He | [_ Hc]]]; [| |discriminate];
        rewrite (voicingKeys_era_only options _ He Ha); reflexivity. }
  split; [exact Hkeys|].
  apply (generateAndDownloadMidi_empty_filter toArray options now Hkeys).
Qed.

Lemma unserved_configurations_fail_witness :
  voicingKeys mid80sTatsuroOptions = []
  /\ fst (generateAndDownloadMidi sampleEncoder mid80sTatsuroOptions 7 (oracleOf []) 0%nat)
     = Throw genericFailure.
Proof.
  apply (unserved_configurations_fail sampleEncoder mid80sTatsuroOptions 7 (oracleOf [])
                                      0%nat).
  right. right. split; reflexivity.
Defined.

(** With no era and a non-empty artist influence [s], the filter keeps the
    one voicing tagged with [s] when [s] is one of the four catalog artists,
    and nothing otherwise: an artist the catalog does not know makes every
    run fail. *)
Theorem artist_filter (toArray : Encoder) (options : Options) (s : string) (now : Z)
    (rnd : Oracle) (k : nat) :
  opt_era options = None ->
  opt_artistInfluence options = Some s ->
  s <> EmptyString ->
  voicingKeys options
  = (if String.eqb "Tatsuro Yamashita" s then ["maj9_13"]
     else if String.eqb "Mariya Takeuchi" s then ["maj7_9_13"]
     else if String.eqb "Toshiki Kadomatsu" s then ["kadomatsu_fusion"]
     else if String.eqb "Anri" s then ["anri_pop"]
     else [])%string
  /\ (s <> "Tatsuro Yamashita"%string -> s <> "Mariya Takeuchi"%string ->
      s <> "Toshiki Kadomatsu"%string -> s <> "Anri"%string ->
      fst (generateAndDownloadMidi toArray options now rnd k) = Throw genericFailure).
Proof.
  intros He Ha Hs.
  assert (Htruthy : truthyString (Some s) = true) by (destruct s; [congruence | reflexivity]).
  assert (Hkeys :
            voicingKeys options
            = (if String.eqb "Tatsuro Yamashita" s then ["maj9_13"]
               else if String.eqb "Mariya Takeuchi" s then ["maj7_9_13"]
               else if String.eqb "Toshiki Kadomatsu" s then ["kadomatsu_fusion"]
               else if String.eqb "Anri" s then ["anri_pop"]
               else [])%string).
  { unfold voicingKeys. rewrite He, Ha, Htruthy.
    cbn [voicings filter map fst snd truthy negb orb andb strictEq era artistStyle].
    destruct (String.eqb_spec "Tatsuro Yamashita" s) as [<-|_]; [reflexivity|].
    destruct (String.eqb_spec "Mariya Takeuchi" s) as [<-|_]; [reflexivity|].
    destruct (String.eqb_spec "Toshiki Kadomatsu" s) as [<-|_]; [reflexivity|].
    destruct (String.eqb_spec "Anri" s) as [<-|_]; reflexivity. }
  split; [exact Hkeys|].
  intros H1 H2 H3 H4.
  apply (generateAndDownloadMidi_empty_filter toArray options now).
  rewrite Hkeys.
  destruct (String.eqb_spec "Tatsuro Yamashita" s); [congruence|].
  destruct (String.eqb_spec "Mariya Takeuchi" s); [congruence|].
  destruct (String.eqb_spec "Toshiki Kadomatsu" s); [congruence|].
  destruct (String.eqb_spec "Anri" s); [congruence|]. reflexivity.
Qed.

Lemma artist_filter_witness :
  voicingKeys {| opt_era := None; opt_style := None;
                 opt_artistInfluence := Some "Anri"%string; opt_complexity := None |}
  = ["anri_pop"%string]
  /\ fst (generateAndDownloadMidi
            sampleEncoder
            {| opt_era := None; opt_style := Some fusion;
               opt_artistInfluence := Some "Casiopea"%string; opt_complexity := None |}
            0 (oracleOf []) 0%nat)
     = Throw genericFailure.
Proof.
  split.
  - apply (artist_filter sampleEncoder _ "Anri" 0 (oracleOf []) 0%nat);
      [reflexivity | reflexivity | discriminate].
  - apply (artist_filter sampleEncoder _ "Casiopea" 0 (oracleOf []) 0%nat);
      [reflexivity | reflexivity | discriminate | discriminate ..].
Defined.

(** ** What a successful run returns *)

Lemma Math_round_between (t : Q) (lo hi : Z) :
  (inject_Z lo <= t <= inject_Z hi)%Q -> lo <= Math_round t <= hi.
Proof.
  intros [Hlo Hhi]. unfold Math_round. split.
  - rewrite <- (Qfloor_Z lo). apply Qfloor_resp_le. lra.
  - assert (H : Qfloor (t + (1 # 2)) < hi + 1).
    { apply Qfloor_lt. rewrite inject_Z_plus. change (inject_Z 1) with 1%Q. lra. }
    lia.
Qed.

(** Every descriptor the entry point returns comes from a file that
    [generateMidiFile] returned: its URL is made from the very data of that
    file, the encoder's bytes for the song of the run, and its file name is
    [citypop-<era or standard>-<style or uptempo>-<now>-<n>bpm.mid] where
    [n] is the file's tempo rounded half up, an integer of the style's tempo
    range. *)
Theorem entry_point_descriptor (toArray : Encoder) (options : Options) (now : Z)
    (rnd : Oracle) (k : nat) (d : Download) :
  fst (generateAndDownloadMidi toArray options now rnd k) = Ok d ->
  exists file song,
    fst (generateMidiFile toArray options now rnd k) = Ok file
    /\ toArray song = Ok (data file)
    /\ (forall enc,
           fst (generateAndDownloadMidi enc options now rnd k)
           = encodedDownload enc (pieceName options now) song)
    /\ url d = createObjectURL (data file)
    /\ filename d
       = ("citypop-" ++ orElse (option_map eraName (opt_era options)) "standard"
          ++ "-" ++ orElse (option_map styleName (opt_style options)) "uptempo"
          ++ "-" ++ showZ now ++ "-" ++ showZ (Math_round (tempo file)) ++ "bpm.mid")%string
    /\ (fst (tempoRange (styleSettings (styleOrDefault options)))
        <= inject_Z (Math_round (tempo file))
        <= snd (tempoRange (styleSettings (styleOrDefault options))))%Q.
Proof.
  intros Hd.
  destruct (fst (generateMidiFile toArray options now rnd k)) as [file|e] eqn:Hfile.
  - destruct (generateMidiFile_returned toArray options now rnd k file Hfile)
      as (Hkeys & _ & _ & _ & Hname & _ & Htempo).
    destruct (generateAndDownloadMidi_song options now rnd k Hkeys)
      as (song & _ & _ & Hr).
    destruct (Hr toArray) as [Hgen _]. rewrite Hfile in Hgen. symmetry in Hgen.
    destruct (encodedFile_Ok _ _ _ _ Hgen) as (Henc & _ & _).
    exists file, song. split; [reflexivity|]. split; [exact Henc|].
    split; [intros enc; apply Hr|].
    assert (Hdesc : d = {| url := createObjectURL (data file);
                           filename := name file ++ "-"
                                       ++ showZ (Math_round (tempo file)) ++ "bpm.mid" |}).
    { unfold generateAndDownloadMidi, bind in Hd.
      destruct (generateMidiFile toArray options now rnd k) as [res k']. simpl in Hfile.
      subst res. simpl in Hd. inversion Hd. reflexivity. }
    subst d. simpl. split; [reflexivity|]. split.
    + rewrite Hname. unfold pieceName. rewrite !string_app_assoc. reflexivity.
    + destruct (styleOrDefault options); simpl in *.
      * pose proof (Math_round_between (tempo file) 65 80 Htempo) as [H1 H2].
        rewrite (Zle_Qle 65), (Zle_Qle _ 80) in *. split; assumption.
      * pose proof (Math_round_between (tempo file) 120 135 Htempo) as [H1 H2].
        rewrite (Zle_Qle 120), (Zle_Qle _ 135) in *. split; assumption.
      * pose proof (Math_round_between (tempo file) 90 110 Htempo) as [H1 H2].
        rewrite (Zle_Qle 90), (Zle_Qle _ 110) in *. split; assumption.
  - exfalso. unfold generateAndDownloadMidi, bind in Hd.
    destruct (generateMidiFile toArray options now rnd k) as [res k']. simpl in Hfile.
    subst res. simpl in Hd. discriminate.
Qed.

(** The descriptor of a run that returns: every draw one half, an encoder
    that accepts the song. *)
Lemma entry_point_descriptor_witness :
  exists d file,
    fst (generateAndDownloadMidi sampleEncoder mariyaOptions 1700000000000 halves 0%nat)
    = Ok d
    /\ fst (generateMidiFile sampleEncoder mariyaOptions 1700000000000 halves 0%nat)
       = Ok file
    /\ url d = createObjectURL (data file)
    /\ filename d
       = ("citypop-standard-ballad-1700000000000-"
          ++ showZ (Math_round (tempo file)) ++ "bpm.mid")%string
    /\ (65 <= inject_Z (Math_round (tempo file)) <= 80)%Q.
Proof.
  destruct (fst (generateAndDownloadMidi sampleEncoder mariyaOptions 1700000000000
                                         halves 0%nat)) as [d|e] eqn:E.
  - destruct (entry_point_descriptor sampleEncoder mariyaOptions 1700000000000 halves
                                     0%nat d E)
      as (file & song & Hfile & _ & _ & Hurl & Hname & Hrange).
    exists d, file. split; [reflexivity|]. split; [exact Hfile|]. split; [exact Hurl|].
    split; [exact Hname | exact Hrange].
  - vm_compute in E. discriminate.
Defined.

Lemma styleSettings_swing_max (sty : Style) : (swingFactor (styleSettings sty) <= 0.4)%Q.
Proof. destruct sty; simpl; lra. Qed.

(** In the song of every returned file the chords do not interleave: the
    data of the file are the encoder's bytes for a song of 8 chords in which
    every note of chord [i] starts at least 1.59 seconds before every note
    of a later chord [j], whatever swing and jitter were drawn, and lasts
    between 1.9 and 2 seconds. The first chord may start before time 0: the
    earliest start of chord [i] is [2 i - 0.205]. *)
Theorem chords_ordered_in_time (toArray : Encoder) (options : Options) (now : Z)
    (rnd : Oracle) (k : nat) (file : MidiFile) :
  fst (generateMidiFile toArray options now rnd k) = Ok file ->
  exists song chords,
    toArray song = Ok (data file)
    /\ (forall enc,
           fst (generateMidiFile enc options now rnd k)
           = encodedFile enc (pieceName options now) song)
    /\ track_notes song = concat chords
    /\ length chords = 8%nat
    /\ (forall i j c1 c2 e1 e2,
           (i < j)%nat ->
           nth_error chords i = Some c1 -> nth_error chords j = Some c2 ->
           In e1 c1 -> In e2 c2 ->
           (time e1 + 1.59 <= time e2)%Q /\ (1.9 <= duration e1 <= 2)%Q)
    /\ (forall i c e,
           nth_error chords i = Some c -> In e c ->
           (2 * inject_Z (Z.of_nat i) - 0.205 <= time e)%Q).
Proof.
  intros Hfile.
  destruct (generateMidiFile_returned toArray options now rnd k file Hfile) as (Hkeys & _).
  destruct (generateMidiFile_song options now rnd k Hkeys)
    as (song & (chords & Hlen & Htrack & Hchords) & _ & Hr).
  pose proof (Hr toArray) as Hgen. rewrite Hfile in Hgen. symmetry in Hgen.
  destruct (encodedFile_Ok _ _ _ _ Hgen) as (Henc & _ & _).
  exists song, chords. split; [exact Henc|]. split; [exact Hr|].
  split; [exact Htrack|]. split; [exact Hlen|].
  pose proof (styleSettings_swing_max (styleOrDefault options)) as Hsw.
  pose proof (styleSettings_swing (styleOrDefault options)) as Hsw0.
  split.
  - intros i j c1 c2 e1 e2 Hij H1 H2 He1 He2.
    destruct (Hchords i c1 H1) as [_ Hall1]. destruct (Hchords j c2 H2) as [_ Hall2].
    rewrite Forall_forall in Hall1, Hall2.
    destruct (Hall1 e1 He1) as (_ & _ & [_ Ht1] & Hd1).
    destruct (Hall2 e2 He2) as (_ & _ & [Ht2 _] & _).
    set (sf := swingFactor (styleSettings (styleOrDefault options))) in *. clearbody sf.
    assert (Hji : (inject_Z (Z.of_nat i) + 1 <= inject_Z (Z.of_nat j))%Q).
    { change 1%Q with (inject_Z 1). rewrite <- inject_Z_plus, <- Zle_Qle. lia. }
    qdiv. split; [lra | exact Hd1].
  - intros i c e Hc He.
    destruct (Hchords i c Hc) as [_ Hall]. rewrite Forall_forall in Hall.
    destruct (Hall e He) as (_ & _ & [Ht _] & _).
    set (sf := swingFactor (styleSettings (styleOrDefault options))) in *. clearbody sf.
    qdiv. lra.
Qed.

Lemma chords_ordered_in_time_witness :
  exists file song chords,
    fst (generateMidiFile sampleEncoder noOptions 0 halves 0%nat) = Ok file
    /\ sampleEncoder song = Ok (data file)
    /\ track_notes song = concat chords
    /\ length chords = 8%nat
    /\ forall i j c1 c2 e1 e2,
         (i < j)%nat ->
         nth_error chords i = Some c1 -> nth_error chords j = Some c2 ->
         In e1 c1 -> In e2 c2 ->
         (time e1 + 1.59 <= time e2)%Q /\ (1.9 <= duration e1 <= 2)%Q.
Proof.
  destruct (fst (generateMidiFile sampleEncoder noOptions 0 halves 0%nat))
    as [file|e] eqn:E.
  - destruct (chords_ordered_in_time sampleEncoder noOptions 0 halves 0%nat file E)
      as (song & chords & Henc & _ & Htrack & Hlen & Horder & _).
    exists file, song, chords. split; [reflexivity|]. split; [exact Henc|].
    split; [exact Htrack|]. split; [exact Hlen | exact Horder].
  - vm_compute in E. discriminate.
Defined.

Lemma progression_roots_range (t : ProgressionTemplate) (i : nat) :
  In t progressionTemplates ->
  60 <= 60 + nth (i mod length (roots t)) (roots t) 0 <= 65.
Proof.
  intros Hcat.
  assert (Hall : Forall (fun r => 0 <= r <= 5) (roots t)).
  { simpl in Hcat.
    repeat (destruct Hcat as [<-|Hcat]; [simpl; repeat constructor; lia|]).
    destruct Hcat. }
  assert (Hne : roots t <> []).
  { simpl in Hcat.
    repeat (destruct Hcat as [<-|Hcat]; [discriminate|]). destruct Hcat. }
  rewrite Forall_forall in Hall.
  assert (Hlt : (i mod length (roots t) < length (roots t))%nat).
  { apply Nat.mod_upper_bound. destruct (roots t); [congruence | discriminate]. }
  pose proof (Hall _ (nth_In (roots t) 0 Hlt)). lia.
Qed.

(** Whatever the style and the draw, a progression template is selected,
    and it is the 'standard' one or the one tagged with the active style:
    the 'jazz' template is never used. Every chord root it yields,
    [60 + roots[i mod length]], lies between 60 and 65. *)
Theorem selected_progression (sty : Style) (rnd : Oracle) (k : nat) :
  exists t,
    fst (selectProgression sty rnd k) = Some t
    /\ In t progressionTemplates
    /\ (style t = "standard"%string \/ style t = styleName sty)
    /\ style t <> "jazz"%string
    /\ forall i : nat,
         60 <= 60 + nth (i mod length (roots t)) (roots t) 0 <= 65.
Proof.
  destruct (selectProgression_some sty rnd k) as (t & Ht & Hin).
  exists t. split; [exact Ht|].
  assert (Hcat : In t progressionTemplates /\
                 (String.eqb (style t) (styleName sty) || String.eqb (style t) "standard")
                 = true).
  { unfold validTemplates in Hin. apply filter_In in Hin. exact Hin. }
  destruct Hcat as [Hcat Hsty]. split; [exact Hcat|].
  assert (Hroots : forall i : nat, 60 <= 60 + nth (i mod length (roots t)) (roots t) 0 <= 65).
  { intros i. apply progression_roots_range, Hcat. }
  apply orb_true_iff in Hsty.
  split; [|split; [|exact Hroots]].
  - destruct Hsty as [H|H]; apply String.eqb_eq in H; auto.
  - destruct Hsty as [H|H]; apply String.eqb_eq in H; rewrite H;
      [destruct sty|]; discriminate.
Qed.

(** ** The spreader: order and size *)

Lemma insertAsc_sorted (x : Z) (l : list Z) :
  Sorted Z.le l -> Sorted Z.le (insertAsc x l).
Proof.
  induction l as [|y t IH]; simpl; intros H.
  - repeat constructor.
  - inversion H as [|? ? Ht Hhd]; subst.
    destruct (Z.ltb_spec x y).
    + constructor; [exact H | constructor; lia].
    + constructor; [apply IH; exact Ht|].
      destruct t as [|z t']; simpl; [constructor; lia|].
      inversion Hhd; subst.
      destruct (x <? z); constructor; lia.
Qed.

Lemma sortAsc_sorted (l : list Z) : Sorted Z.le (sortAsc l).
Proof.
  unfold sortAsc.
  assert (H : forall acc, Sorted Z.le acc ->
                          Sorted Z.le (fold_left (fun a x => insertAsc x a) l acc)).
  { induction l as [|x t IH]; intros acc Hacc; simpl; [exact Hacc|].
    apply IH, insertAsc_sorted, Hacc. }
  apply H. constructor.
Qed.

Lemma octaveDoubling_length_le (options : Options) (spread : list Z) :
  always (octaveDoubling options spread)
         (fun out => (length out <= length spread + 1)%nat).
Proof.
  unfold octaveDoubling.
  eapply always_bind; [apply always_True|]. intros [|] _.
  - eapply always_bind; [apply always_True|]. intros idx _.
    apply always_ret. rewrite length_app. simpl. lia.
  - apply always_ret. lia.
Qed.

Lemma artistAdjust_length_le (options : Options) (spread : list Z) :
  always (artistAdjust options spread)
         (fun out => (length out <= length spread + 1)%nat).
Proof.
  unfold artistAdjust.
  destruct (truthyString (opt_artistInfluence options)); [|apply always_ret; lia].
  destruct (opt_artistInfluence options) as [s|]; [|apply always_ret; lia].
  destruct (String.eqb s "Tatsuro Yamashita").
  - eapply always_bind; [apply always_True|]. intros [|] _; apply always_ret.
    + rewrite length_app. simpl. lia.
    + lia.
  - destruct (String.eqb s "Mariya Takeuchi"); apply always_ret.
    + rewrite pullDown_length. lia.
    + lia.
Qed.

Lemma positionAdjust_length_le (position : nat) (spread : list Z) :
  always (positionAdjust position spread)
         (fun out => (length out <= length spread + 1)%nat).
Proof.
  eapply always_weaken; [apply positionAdjust_cases|].
  intros out [-> | (_ & [-> | ->])]; rewrite ?length_app; simpl; lia.
Qed.

(** [spreadVoicing] returns its pitches in ascending order, never drops a
    voice and adds at most three (the doubling, the artist's top double, the
    position-based tension), for every input, configuration and draw. *)
Theorem spreadVoicing_sorted_size (options : Options) (notes : list Z) (position : nat)
    (rnd : Oracle) (k : nat) :
  Sorted Z.le (fst (spreadVoicing options notes position rnd k))
  /\ (length notes <= length (fst (spreadVoicing options notes position rnd k))
      <= length notes + 3)%nat.
Proof.
  split.
  - unfold spreadVoicing, bind.
    destruct (spreadBeforeClamp options notes rnd k) as [pre k1].
    destruct (positionAdjust position (map rangeClamp pre) rnd k1) as [s2 k2].
    simpl. apply sortAsc_sorted.
  - split; [apply spreadVoicing_length|].
    revert rnd k.
    change (always (spreadVoicing options notes position)
                   (fun out => (length out <= length notes + 3)%nat)).
    unfold spreadVoicing.
    eapply always_bind with (P := fun pre => (length pre <= length notes + 2)%nat).
    + unfold spreadBeforeClamp.
      eapply always_bind; [apply octaveDoubling_length_le|]. intros s1 H1.
      cbv beta in H1. rewrite ensureSpacing_length, sortAsc_length in H1.
      eapply always_weaken; [apply artistAdjust_length_le|].
      intros out Hout. cbv beta in Hout. rewrite eraAdjust_length in Hout. lia.
    + intros pre Hpre.
      eapply always_bind; [apply positionAdjust_length_le|]. intros s2 H2.
      apply always_ret. cbv beta in H2. rewrite length_map in H2.
      rewrite sortAsc_length. lia.
Qed.

Lemma spacingFrom_sorted (m : Z) (t : list Z) (p0 p' : Z) :
  0 < m ->
  p0 <= p' <= p0 + 12 ->
  Sorted Z.lt (p0 :: t) ->
  Sorted Z.lt (p' :: spacingFrom m p' t).
Proof.
  intros Hm. revert p0 p'. induction t as [|x t IH]; intros p0 p' Hp Hs; simpl.
  - repeat constructor.
  - inversion Hs as [|? ? Ht Hhd]; subst. inversion Hhd; subst.
    constructor.
    + apply (IH x); [|exact Ht].
      destruct (x - p' <? m); lia.
    + constructor. destruct (Z.ltb_spec (x - p') m); lia.
Qed.

Lemma spacingFrom_steps (m prev : Z) (t : list Z) :
  Forall2 (fun n p => p = n \/ p = n + 12) t (spacingFrom m prev t).
Proof.
  revert prev. induction t as [|x t IH]; intros prev; simpl; constructor.
  - destruct (x - prev <? m); auto.
  - apply IH.
Qed.

Lemma ensureSpacing_steps (m : Z) (l : list Z) :
  Forall2 (fun n p => p = n \/ p = n + 12) l (ensureSpacing m l).
Proof.
  destruct l as [|x t]; simpl; constructor; [now left | apply spacingFrom_steps].
Qed.

(** The minimum-spacing pass on a strictly ascending array (the sorted
    contents of a set), for a positive threshold: the lowest pitch is kept,
    every other pitch is kept or raised by exactly one octave, and the
    result is again strictly ascending, so the pass never makes two voices
    cross or collide. *)
Theorem ensureSpacing_keeps_order (m : Z) (l : list Z) :
  0 < m ->
  strictlyAscending l ->
  strictlyAscending (ensureSpacing m l)
  /\ hd_error (ensureSpacing m l) = hd_error l
  /\ Forall2 (fun n p => p = n \/ p = n + 12) l (ensureSpacing m l).
Proof.
  intros Hm Hl. split; [|split; [destruct l; reflexivity | apply ensureSpacing_steps]].
  unfold strictlyAscending in *.
  apply Sorted_StronglySorted; [intros a b c; lia|].
  apply StronglySorted_Sorted in Hl.
  destruct l as [|x t]; simpl; [constructor|].
  apply (spacingFrom_sorted m t x x); [exact Hm | lia | exact Hl].
Qed.

Lemma ensureSpacing_keeps_order_witness :
  strictlyAscending (ensureSpacing 2 [60; 61; 62; 70])
  /\ hd_error (ensureSpacing 2 [60; 61; 62; 70]) = Some 60
  /\ Forall2 (fun n p => p = n \/ p = n + 12) [60; 61; 62; 70]
             (ensureSpacing 2 [60; 61; 62; 70]).
Proof.
  apply (ensureSpacing_keeps_order 2 [60; 61; 62; 70]).
  - reflexivity.
  - unfold strictlyAscending. repeat constructor.
Defined.

(** ** The spreader and the smoother move notes by octaves only *)

Lemma sameClass_iff (p n : Z) : sameClass p n <-> exists j, p = n + 12 * j.
Proof.
  unfold sameClass. split.
  - intros H. apply Z.mod_divide in H; [|lia]. destruct H as [j Hj].
    exists j. lia.
  - intros [j ->]. replace (n + 12 * j - n) with (j * 12) by lia.
    apply Z.mod_mul. lia.
Qed.

Lemma sameClass_refl (n : Z) : sameClass n n.
Proof. apply sameClass_iff. exists 0. lia. Qed.

Lemma sameClass_trans (p q n : Z) : sameClass p q -> sameClass q n -> sameClass p n.
Proof.
  rewrite !sameClass_iff. intros [a ->] [b ->]. exists (a + b). lia.
Qed.

Lemma octaveStep_sameClass (n p : Z) : octaveStep n p -> sameClass p n.
Proof.
  intros [-> | [-> | ->]]; apply sameClass_iff;
    [exists 0 | exists 1 | exists (-1)]; lia.
Qed.

Lemma sameClasses_refl (l : list Z) : sameClasses l l.
Proof. split; intros n Hn; exists n; split; auto using sameClass_refl. Qed.

Lemma sameClasses_trans (l1 l2 l3 : list Z) :
  sameClasses l1 l2 -> sameClasses l2 l3 -> sameClasses l1 l3.
Proof.
  intros [H12 H21] [H23 H32]. split.
  - intros n Hn. destruct (H12 n Hn) as (p & Hp & Hpn).
    destruct (H23 p Hp) as (q & Hq & Hqp). exists q. split; [exact Hq|].
    eapply sameClass_trans; eassumption.
  - intros q Hq. destruct (H32 q Hq) as (p & Hp & Hqp).
    destruct (H21 p Hp) as (n & Hn & Hpn). exists n. split; [exact Hn|].
    eapply sameClass_trans; eassumption.
Qed.

Lemma sameClasses_perm (l l' : list Z) : Permutation l l' -> sameClasses l l'.
Proof.
  intros H. split; intros n Hn; exists n; split; auto using sameClass_refl.
  - eapply Permutation_in; eassumption.
  - eapply Permutation_in; [symmetry|]; eassumption.
Qed.

Lemma sameClasses_Forall2 (l l' : list Z) :
  Forall2 (fun n p => sameClass p n) l l' -> sameClasses l l'.
Proof.
  intros H. split.
  - induction H as [|n p l l' Hnp _ IH]; intros x Hx; [destruct Hx|].
    destruct Hx as [<-|Hx].
    + exists p. split; [now left | exact Hnp].
    + destruct (IH x Hx) as (q & Hq & Hqx). exists q. split; [now right | exact Hqx].
  - induction H as [|n p l l' Hnp _ IH]; intros x Hx; [destruct Hx|].
    destruct Hx as [<-|Hx].
    + exists n. split; [now left | exact Hnp].
    + destruct (IH x Hx) as (q & Hq & Hqx). exists q. split; [now right | exact Hqx].
Qed.

Lemma sameClasses_map (f : Z -> Z) (l : list Z) :
  (forall n, octaveStep n (f n)) -> sameClasses l (map f l).
Proof.
  intros Hf. apply sameClasses_Forall2.
  induction l as [|n t IH]; simpl; constructor; [|exact IH].
  apply octaveStep_sameClass, Hf.
Qed.

Lemma sameClasses_push (l : list Z) (x n : Z) :
  In n l -> sameClass x n -> sameClasses l (l ++ [x]).
Proof.
  intros Hn Hx. split.
  - intros y Hy. exists y. split; [apply in_or_app; now left | apply sameClass_refl].
  - intros p Hp. apply in_app_or in Hp. destruct Hp as [Hp|[<-|[]]].
    + exists p. split; [exact Hp | apply sameClass_refl].
    + exists n. split; assumption.
Qed.

Lemma fold_max_In (d : Z) (l : list Z) : In (fold_right Z.max d l) (d :: l).
Proof.
  induction l as [|y u IH]; simpl; [now left|].
  destruct (Z.max_spec y (fold_right Z.max d u)) as [[_ E]|[_ E]]; rewrite E.
  - destruct IH as [IH|IH]; [now left | right; now right].
  - right. now left.
Qed.

Lemma Math_max_In (l : list Z) : l <> [] -> In (Math_max l) l.
Proof.
  unfold Math_max. destruct l as [|x t]; [congruence|]. intros _. simpl hd.
  destruct (fold_max_In x (x :: t)) as [E|H]; [rewrite <- E; now left | exact H].
Qed.

Lemma Math_max_ge (l : list Z) (p : Z) : In p l -> p <= Math_max l.
Proof.
  unfold Math_max. generalize (hd 0 l). induction l as [|y u IH]; intros d Hp;
    [destruct Hp|].
  simpl. destruct Hp as [->|Hp]; [lia|]. specialize (IH d Hp). lia.
Qed.

Lemma always_and {A} (m : Rand A) (P Q : A -> Prop) :
  always m P -> always m Q -> always m (fun a => P a /\ Q a).
Proof. intros HP HQ rnd k. split; [apply HP | apply HQ]. Qed.

Lemma nonempty_length (l : list Z) : l <> [] <-> (1 <= length l)%nat.
Proof. destruct l; simpl; split; intros H; try congruence; try lia; discriminate. Qed.

Lemma octaveDoubling_classes (options : Options) (spread : list Z) :
  spread <> [] -> always (octaveDoubling options spread) (sameClasses spread).
Proof.
  intros Hne. unfold octaveDoubling.
  eapply always_bind; [apply always_True|]. intros [|] _.
  - eapply always_bind.
    { apply always_randomIndex. apply nonempty_length, Hne. }
    intros idx Hidx. apply always_ret.
    apply (sameClasses_push spread _ (nth idx spread 0)).
    + apply nth_In. exact Hidx.
    + apply octaveStep_sameClass. right. now left.
  - apply always_ret. apply sameClasses_refl.
Qed.

Lemma pullDown_classes (limit : Q) (spread : list Z) :
  sameClasses spread (pullDown limit spread).
Proof.
  unfold pullDown. apply sameClasses_map. intros n.
  destruct (Qltb (inject_Z (hd 0 spread) + limit) (inject_Z n));
    [right; now right | now left].
Qed.

Lemma eraAdjust_classes (options : Options) (spread : list Z) :
  sameClasses spread (eraAdjust options spread).
Proof.
  unfold eraAdjust.
  destruct (opt_era options) as [[| | |]|];
    try apply sameClasses_refl; apply pullDown_classes.
Qed.

Lemma artistAdjust_classes (options : Options) (spread : list Z) :
  spread <> [] -> always (artistAdjust options spread) (sameClasses spread).
Proof.
  intros Hne. unfold artistAdjust.
  destruct (truthyString (opt_artistInfluence options));
    [|apply always_ret, sameClasses_refl].
  destruct (opt_artistInfluence options) as [s|]; [|apply always_ret, sameClasses_refl].
  destruct (String.eqb s "Tatsuro Yamashita").
  - eapply always_bind; [apply always_True|]. intros [|] _; apply always_ret.
    + apply (sameClasses_push spread _ (Math_max spread)).
      * apply Math_max_In, Hne.
      * apply octaveStep_sameClass. right. now left.
    + apply sameClasses_refl.
  - destruct (String.eqb s "Mariya Takeuchi"); apply always_ret.
    + apply pullDown_classes.
    + apply sameClasses_refl.
Qed.

Lemma rangeClamp_octaveStep (n : Z) : octaveStep n (rangeClamp n).
Proof.
  unfold rangeClamp, octaveStep.
  destruct (n <? 36); [right; now left|].
  destruct (n >? 84); [right; now right | now left].
Qed.

Lemma spreadBeforeClamp_classes (options : Options) (notes : list Z) :
  notes <> [] ->
  always (spreadBeforeClamp options notes)
         (fun pre => sameClasses notes pre /\ pre <> []).
Proof.
  intros Hne. apply always_and.
  - unfold spreadBeforeClamp.
    assert (Hs : ensureSpacing (minSpacing options) (sortAsc notes) <> []).
    { apply nonempty_length. rewrite ensureSpacing_length, sortAsc_length.
      apply nonempty_length, Hne. }
    assert (H0 : sameClasses notes (ensureSpacing (minSpacing options) (sortAsc notes))).
    { eapply sameClasses_trans.
      - apply sameClasses_perm. symmetry. apply sortAsc_perm.
      - apply sameClasses_Forall2.
        eapply Forall2_impl; [|apply ensureSpacing_steps].
        intros n p [-> | ->]; apply octaveStep_sameClass; [now left | right; now left]. }
    eapply always_bind.
    { apply always_and; [apply (octaveDoubling_classes options _ Hs)
                        | apply octaveDoubling_length]. }
    intros s1 [H1 Hl1]. cbv beta in Hl1.
    assert (Hs1 : eraAdjust options s1 <> []).
    { apply nonempty_length. rewrite eraAdjust_length.
      apply nonempty_length in Hs. lia. }
    eapply always_weaken; [apply (artistAdjust_classes options _ Hs1)|].
    intros out Hout.
    eapply sameClasses_trans; [exact H0|].
    eapply sameClasses_trans; [exact H1|].
    eapply sameClasses_trans; [apply eraAdjust_classes | exact Hout].
  - eapply always_weaken; [apply spreadBeforeClamp_length|].
    intros out Hout. cbv beta in Hout. apply nonempty_length.
    apply nonempty_length in Hne. lia.
Qed.

(** The spreader only moves notes by whole octaves. Every pitch class of
    the input is still present in the output; and at position 0, where no
    tension pitch is appended, every returned pitch is an input note moved
    by a whole number of octaves. *)
Theorem spreadVoicing_pitch_classes (options : Options) (notes : list Z)
    (position : nat) (rnd : Oracle) (k : nat) :
  notes <> [] ->
  (forall n, In n notes ->
             exists p, In p (fst (spreadVoicing options notes position rnd k))
                       /\ sameClass p n)
  /\ (position = 0%nat ->
      sameClasses notes (fst (spreadVoicing options notes position rnd k))).
Proof.
  intros Hne. unfold spreadVoicing, bind.
  pose proof (spreadBeforeClamp_classes options notes Hne rnd k) as [Hpre Hpne].
  destruct (spreadBeforeClamp options notes rnd k) as [pre k1]. simpl in Hpre, Hpne.
  pose proof (positionAdjust_cases position (map rangeClamp pre) rnd k1) as Hpos.
  destruct (positionAdjust position (map rangeClamp pre) rnd k1) as [s2 k2].
  simpl in Hpos. simpl.
  assert (Hcl : sameClasses notes (map rangeClamp pre)).
  { eapply sameClasses_trans; [exact Hpre|].
    apply sameClasses_map, rangeClamp_octaveStep. }
  split.
  - intros n Hn. destruct (proj1 Hcl n Hn) as (p & Hp & Hpn).
    exists p. split; [|exact Hpn]. apply sortAsc_In.
    destruct Hpos as [-> | (_ & [-> | ->])]; [exact Hp | | ];
      apply in_or_app; now left.
  - intros ->. destruct Hpos as [-> | (Hp & _)]; [|lia].
    eapply sameClasses_trans; [exact Hcl|].
    apply sameClasses_perm. symmetry. apply sortAsc_perm.
Qed.

Lemma spreadVoicing_pitch_classes_witness :
  sameClasses [60; 64; 67; 71; 74; 36]
              (fst (spreadVoicing tatsuroOptions [60; 64; 67; 71; 74; 36] 0
                                  (oracleOf []) 0%nat)).
Proof.
  apply (spreadVoicing_pitch_classes tatsuroOptions [60; 64; 67; 71; 74; 36] 0
                                     (oracleOf []) 0%nat).
  - discriminate.
  - reflexivity.
Defined.

Lemma smoothNote_octaveStep (prevNotes : list Z) (note : Z) :
  octaveStep note (smoothNote prevNotes note).
Proof.
  unfold smoothNote, octaveStep.
  destruct (Z.abs (closest prevNotes note - note) >? 7); [|now left].
  destruct (closest prevNotes note >? note); [right; now left | right; now right].
Qed.

Lemma voiceLeading_steps (prevNotes notes : list Z) :
  Forall2 octaveStep notes (voiceLeading prevNotes notes).
Proof.
  unfold voiceLeading. destruct (0 <? length prevNotes)%nat.
  - induction notes as [|n t IH]; simpl; constructor;
      [apply smoothNote_octaveStep | exact IH].
  - induction notes as [|n t IH]; constructor; [now left | exact IH].
Qed.

(** Voice leading keeps the number of notes and moves each note by an
    octave at most. A note that has some previous note within 7 semitones
    is never moved; a note whose closest previous note is 8 to 19 semitones
    away ends within 7 semitones of it. *)
Theorem voiceLeading_octaves (prevNotes notes : list Z) :
  Forall2 octaveStep notes (voiceLeading prevNotes notes)
  /\ (forall note p,
         In p prevNotes -> Z.abs (p - note) <= 7 -> smoothNote prevNotes note = note)
  /\ (forall note,
         prevNotes <> [] ->
         8 <= Z.abs (closest prevNotes note - note) <= 19 ->
         Z.abs (closest prevNotes note - smoothNote prevNotes note) <= 7).
Proof.
  split; [apply voiceLeading_steps|split].
  - intros note p Hp Hnear.
    assert (Hne : prevNotes <> []) by (destruct prevNotes; [destruct Hp | discriminate]).
    destruct (closest_isClosest prevNotes note Hne) as (j & _ & Hmin & _).
    apply In_nth_error in Hp. destruct Hp as [i Hi].
    specialize (Hmin i p Hi).
    unfold smoothNote.
    destruct (Z.gtb_spec (Z.abs (closest prevNotes note - note)) 7); [lia | reflexivity].
  - intros note _ Hd. rewrite smoothNote_smoothTowards. unfold smoothTowards.
    destruct (Z.ltb_spec 7 (Z.abs (closest prevNotes note - note))); [|lia].
    destruct (Z.ltb_spec note (closest prevNotes note)); lia.
Qed.

Lemma voiceLeading_octaves_witness :
  smoothNote [48; 60; 64] 66 = 66
  /\ Z.abs (closest [48; 60] 70 - smoothNote [48; 60] 70) <= 7.
Proof.
  split.
  - apply (proj1 (proj2 (voiceLeading_octaves [48; 60; 64] [])) 66 64).
    + right. right. now left.
    + discriminate.
  - apply (proj2 (proj2 (voiceLeading_octaves [48; 60] [])) 70).
    + discriminate.
    + split; discriminate.
Defined.

(** ** Low pitches: the builder never goes below 36 *)

Lemma Set_add_inv (x p : Z) (s : list Z) : In p (Set_add x s) -> p = x \/ In p s.
Proof.
  unfold Set_add. destruct (existsb (Z.eqb x) s); [now right|].
  intros H. apply in_app_or in H. destruct H as [H|[<-|[]]]; auto.
Qed.

Lemma closerVoicing_members (fuel : nat) (root : Z) (visited pending : list Z) (p : Z) :
  In p (closerVoicing fuel root visited pending) ->
  In p (visited ++ pending) \/ root < p.
Proof.
  revert visited pending. induction fuel as [|f IH]; intros visited pending H.
  - destruct pending; simpl in H; [rewrite app_nil_r|]; now left.
  - destruct pending as [|note rest]; [simpl in H; rewrite app_nil_r; now left|].
    cbn [closerVoicing] in H.
    destruct (Z.gtb_spec (note - root) 12) as [Hgt|Hle]; simpl in H.
    + destruct (existsb (Z.eqb (note - 12)) (visited ++ note :: rest)); simpl in H.
      * destruct (IH _ _ H) as [Hin|Hlt]; [left|now right].
        rewrite <- app_assoc in Hin. exact Hin.
      * destruct (IH _ _ H) as [Hin|Hlt]; [|now right].
        rewrite <- app_assoc in Hin. simpl in Hin.
        apply in_app_or in Hin. destruct Hin as [Hin|[<-|Hin]].
        -- left. apply in_or_app. now left.
        -- left. apply in_or_app. right. now left.
        -- apply in_app_or in Hin. destruct Hin as [Hin|[<-|[]]].
           ++ left. apply in_or_app. right. now right.
           ++ right. lia.
    + destruct (IH _ _ H) as [Hin|Hlt]; [left|now right].
      rewrite <- app_assoc in Hin. exact Hin.
Qed.

Lemma addIntervals_low (options : Options) (root : Z) (ivs notes : list Z) :
  Forall (fun i => 0 <= i) ivs ->
  (forall p, In p notes -> root - 24 <= p) ->
  always (addIntervals options root ivs notes) (fun out => forall p, In p out -> root - 24 <= p).
Proof.
  revert notes. induction ivs as [|i t IH]; intros notes Hivs Hnotes; simpl.
  - apply always_ret. exact Hnotes.
  - inversion Hivs; subst.
    eapply always_bind with (P := fun n => root - 12 <= n).
    + unfold adjustNoteForEra. destruct (opt_era options) as [[| | |]|];
        try (apply always_ret; lia);
        (eapply always_bind; [apply always_True|]; intros [|] _; apply always_ret; lia).
    + intros n Hn. apply IH; [assumption|].
      intros p Hp. apply Set_add_inv in Hp. destruct Hp as [->|Hp]; [lia | auto].
Qed.

Lemma nth_nonneg (l : list Z) (idx : nat) : Forall (fun i => 0 <= i) l -> 0 <= nth idx l 0.
Proof.
  intros H. revert idx. induction H as [|x t Hx _ IH]; intros [|idx]; simpl; try lia.
  apply IH.
Qed.

Lemma addTensions_low (options : Options) (root : Z) (voicing : ExtendedVoicing)
    (count : nat) (notes : list Z) :
  Forall (fun i => 0 <= i) (tensions voicing) ->
  (forall p, In p notes -> root - 24 <= p) ->
  always (addTensions options root voicing count notes)
         (fun out => forall p, In p out -> root - 24 <= p).
Proof.
  intros Hten. revert notes. induction count as [|c IH]; intros notes Hnotes; simpl.
  - apply always_ret. exact Hnotes.
  - eapply always_bind; [apply always_True|]. intros [|] _.
    + eapply always_bind; [apply always_True|]. intros idx _.
      apply IH. intros p Hp. apply Set_add_inv in Hp.
      destruct Hp as [->|Hp]; [|auto].
      pose proof (nth_nonneg (tensions voicing) idx Hten). lia.
    + apply IH. exact Hnotes.
Qed.

Lemma applyArtistModifications_low (options : Options) (notes : list Z) (root : Z) :
  (forall p, In p notes -> root - 24 <= p) ->
  forall p, In p (applyArtistModifications options notes root) -> root - 24 <= p.
Proof.
  intros Hnotes p. unfold applyArtistModifications.
  destruct (opt_artistInfluence options) as [s|]; [|apply Hnotes].
  destruct (String.eqb s "Tatsuro Yamashita").
  { intros Hp. apply Set_add_inv in Hp. destruct Hp as [->|Hp]; [lia | auto]. }
  destruct (String.eqb s "Mariya Takeuchi").
  { intros Hp. apply closerVoicing_members in Hp. destruct Hp as [Hp|Hp]; [auto | lia]. }
  destruct (String.eqb s "Toshiki Kadomatsu"); [|apply Hnotes].
  intros Hp. apply Set_add_inv in Hp. destruct Hp as [->|Hp]; [lia|].
  apply Set_add_inv in Hp. destruct Hp as [->|Hp]; [lia | auto].
Qed.

Lemma voicingNotes_low (options : Options) (root : Z) (voicing : ExtendedVoicing)
    (cplx : Q) :
  Forall (fun i => 0 <= i) (intervals voicing) ->
  Forall (fun i => 0 <= i) (tensions voicing) ->
  always (voicingNotes options root voicing cplx)
         (fun notes => notes <> [] /\ forall p, In p notes -> root - 24 <= p).
Proof.
  intros Hiv Hten. unfold voicingNotes.
  eapply always_bind; [apply (addIntervals_low options root _ [] Hiv); intros p []|].
  intros n1 H1.
  eapply always_bind; [apply (addTensions_low options root voicing _ n1 Hten H1)|].
  intros n2 H2.
  eapply always_bind with (P := fun b => b = 12 \/ b = 24).
  { intros rnd k. rewrite getBassProbability_run. simpl. unfold bassOctaveOf.
    destruct (opt_era options) as [[| | |]|]; auto;
      match goal with |- context [Qltb ?a ?b] => destruct (Qltb a b) end; auto. }
  intros b Hb. cbv beta in Hb, H1, H2. apply always_ret. split.
  - apply nonempty_length, Set_add_length.
  - intros p Hp. apply Set_add_inv in Hp. destruct Hp as [->|Hp]; [lia|].
    destruct (strictEq String.eqb (artistStyle voicing) (opt_artistInfluence options));
      [eapply applyArtistModifications_low; eassumption | auto].
Qed.

Lemma pullDown_low (limit : Q) (l : list Z) :
  (6 <= limit)%Q -> 36 <= hd 0 l -> (forall p, In p l -> 24 <= p) ->
  hd 0 (pullDown limit l) = hd 0 l /\ forall p, In p (pullDown limit l) -> 24 <= p.
Proof.
  intros Hlim Hhd Hall. split.
  - destruct l as [|x t]; [reflexivity|]. simpl.
    destruct (Qltb (inject_Z x + limit) (inject_Z x)) eqn:E; [|reflexivity].
    apply Qltb_lt in E. lra.
  - intros p Hp. unfold pullDown in Hp. apply in_map_iff in Hp.
    destruct Hp as (n & <- & Hn).
    destruct (Qltb (inject_Z (hd 0 l) + limit) (inject_Z n)) eqn:E; [|auto].
    apply Qltb_lt in E.
    assert (H : (inject_Z (hd 0 l + 6)%Z < inject_Z n)%Q).
    { rewrite inject_Z_plus. change (inject_Z 6) with 6%Q. lra. }
    rewrite <- Zlt_Qlt in H. lia.
Qed.

Lemma maxSpacing_limits (options : Options) :
  (6 <= inject_Z (maxSpacing options))%Q
  /\ (6 <= inject_Z (maxSpacing options) / 2)%Q
  /\ (6 <= inject_Z (maxSpacing options) / 1.5)%Q.
Proof.
  unfold maxSpacing.
  destruct (strictEq Style_eqb (opt_style options) (Some fusion));
    repeat split; vm_compute; discriminate.
Qed.

Lemma hd_app_nonempty (l l' : list Z) : l <> [] -> hd 0 (l ++ l') = hd 0 l.
Proof. destruct l; [congruence | reflexivity]. Qed.

Lemma hd_In (l : list Z) : l <> [] -> In (hd 0 l) l.
Proof. destruct l; [congruence | intros _; now left]. Qed.

Lemma spreadBeforeClamp_low (options : Options) (notes : list Z) :
  notes <> [] ->
  (forall p, In p notes -> 36 <= p) ->
  always (spreadBeforeClamp options notes)
         (fun pre => pre <> [] /\ forall p, In p pre -> 24 <= p).
Proof.
  intros Hne Hlow. unfold spreadBeforeClamp.
  set (s0 := ensureSpacing (minSpacing options) (sortAsc notes)).
  assert (Hs0 : s0 <> []).
  { apply nonempty_length. unfold s0. rewrite ensureSpacing_length, sortAsc_length.
    apply nonempty_length, Hne. }
  assert (Hl0 : forall p, In p s0 -> 36 <= p).
  { intros p Hp. pose proof (ensureSpacing_steps (minSpacing options) (sortAsc notes)) as HF.
    fold s0 in HF.
    assert (Hgen : forall l l', Forall2 (fun n q => q = n \/ q = n + 12) l l' ->
                                (forall n, In n l -> 36 <= n) ->
                                forall q, In q l' -> 36 <= q).
    { intros l l' H. induction H as [|n q l l' Hnq _ IH]; intros Hl q0 Hq0; [destruct Hq0|].
      destruct Hq0 as [<-|Hq0].
      - specialize (Hl n (or_introl eq_refl)). lia.
      - apply IH; [|exact Hq0]. intros n0 Hn0. apply Hl. now right. }
    apply (Hgen _ _ HF); [|exact Hp].
    intros n Hn. apply Hlow, sortAsc_In, Hn. }
  eapply always_bind with
    (P := fun s1 => s1 <> [] /\ 36 <= hd 0 s1 /\ forall p, In p s1 -> 36 <= p).
  { unfold octaveDoubling.
    eapply always_bind; [apply always_True|]. intros [|] _.
    - eapply always_bind; [apply always_randomIndex, nonempty_length, Hs0|].
      intros idx Hidx. apply always_ret. cbv beta in Hidx.
      split; [destruct s0; [congruence | discriminate]|].
      split; [rewrite hd_app_nonempty by exact Hs0; apply Hl0, hd_In, Hs0|].
      intros p Hp. apply in_app_or in Hp. destruct Hp as [Hp|[<-|[]]]; [auto|].
      pose proof (Hl0 _ (nth_In s0 0 Hidx)). lia.
    - apply always_ret. split; [exact Hs0|]. split; [apply Hl0, hd_In, Hs0 | exact Hl0]. }
  intros s1 (Hs1 & Hhd1 & Hl1).
  destruct (maxSpacing_limits options) as (Hm1 & Hm2 & Hm3).
  assert (He : eraAdjust options s1 <> []
               /\ 36 <= hd 0 (eraAdjust options s1)
               /\ forall p, In p (eraAdjust options s1) -> 24 <= p).
  { split; [apply nonempty_length; rewrite eraAdjust_length; apply nonempty_length, Hs1|].
    assert (H24 : forall p, In p s1 -> 24 <= p) by (intros p Hp; specialize (Hl1 p Hp); lia).
    unfold eraAdjust. destruct (opt_era options) as [[| | |]|];
      try (split; [exact Hhd1 | exact H24]).
    - destruct (pullDown_low _ s1 Hm2 Hhd1 H24) as [E H]. rewrite E. auto.
    - destruct (pullDown_low _ s1 Hm1 Hhd1 H24) as [E H]. rewrite E. auto. }
  destruct He as (He1 & He2 & He3).
  set (s2 := eraAdjust options s1) in *.
  unfold artistAdjust.
  destruct (truthyString (opt_artistInfluence options)); [|apply always_ret; auto].
  destruct (opt_artistInfluence options) as [s|]; [|apply always_ret; auto].
  destruct (String.eqb s "Tatsuro Yamashita").
  - eapply always_bind; [apply always_True|]. intros [|] _; apply always_ret; [|auto].
    split; [destruct s2; [congruence | discriminate]|].
    intros p Hp. apply in_app_or in Hp. destruct Hp as [Hp|[<-|[]]]; [auto|].
    pose proof (He3 _ (Math_max_In s2 He1)). lia.
  - destruct (String.eqb s "Mariya Takeuchi"); apply always_ret; [|auto].
    split; [apply nonempty_length; rewrite pullDown_length; apply nonempty_length, He1|].
    apply (pullDown_low _ s2 Hm3 He2 He3).
Qed.

Lemma rangeClamp_low (p : Z) : 24 <= p -> 36 <= rangeClamp p.
Proof.
  intros Hp. unfold rangeClamp. destruct (Z.ltb_spec p 36); [lia|].
  destruct (Z.gtb_spec p 84); lia.
Qed.

Lemma spreadVoicing_low (options : Options) (notes : list Z) (position : nat) :
  notes <> [] ->
  (forall p, In p notes -> 36 <= p) ->
  always (spreadVoicing options notes position) (fun out => forall p, In p out -> 36 <= p).
Proof.
  intros Hne Hlow. unfold spreadVoicing.
  eapply always_bind; [apply (spreadBeforeClamp_low options notes Hne Hlow)|].
  intros pre [Hpne Hpre].
  assert (Hcl : forall p, In p (map rangeClamp pre) -> 36 <= p).
  { intros p Hp. apply in_map_iff in Hp. destruct Hp as (n & <- & Hn).
    apply rangeClamp_low, Hpre, Hn. }
  assert (Hcne : map rangeClamp pre <> []) by (destruct pre; [congruence | discriminate]).
  eapply always_bind; [apply positionAdjust_cases|].
  intros s2 Hs2. apply always_ret. intros p Hp.
  apply (proj1 (sortAsc_In _ _)) in Hp.
  pose proof (Hcl _ (Math_max_In _ Hcne)) as Hmax.
  destruct Hs2 as [-> | (_ & [-> | ->])]; [auto | |];
    (apply in_app_or in Hp; destruct Hp as [Hp|[<-|[]]]; [auto | lia]).
Qed.

Lemma createRichVoicing_low (options : Options) (root : Z) (voicing : ExtendedVoicing)
    (cplx : Q) (position : nat) :
  60 <= root ->
  Forall (fun i => 0 <= i) (intervals voicing) ->
  Forall (fun i => 0 <= i) (tensions voicing) ->
  always (createRichVoicing options root voicing cplx position)
         (fun out => forall p, In p out -> 36 <= p).
Proof.
  intros Hroot Hiv Hten. unfold createRichVoicing.
  eapply always_bind; [apply (voicingNotes_low options root voicing cplx Hiv Hten)|].
  intros notes [Hne Hlow]. apply spreadVoicing_low; [exact Hne|].
  intros p Hp. specialize (Hlow p Hp). lia.
Qed.

(** For a chord root of at least 60 (every root of the driver is) and a
    voicing whose intervals and tensions are not negative (every catalog
    voicing), no pitch returned by [createRichVoicing] lies below 36, under
    any configuration and any draw: the "too low" branch of the range map
    always repairs what the octave pull-downs lowered. *)
Theorem createRichVoicing_at_least_36 (options : Options) (root : Z)
    (voicing : ExtendedVoicing) (cplx : Q) (position : nat) (rnd : Oracle) (k : nat) :
  60 <= root ->
  Forall (fun i => 0 <= i) (intervals voicing) ->
  Forall (fun i => 0 <= i) (tensions voicing) ->
  forall p, In p (fst (createRichVoicing options root voicing cplx position rnd k)) ->
            36 <= p.
Proof.
  intros Hroot Hiv Hten.
  apply (createRichVoicing_low options root voicing cplx position Hroot Hiv Hten).
Qed.

Lemma createRichVoicing_at_least_36_witness :
  Forall (fun p => 36 <= p)
         (fst (createRichVoicing seventiesOptions 60
                 {| intervals := [0; 4; 7; 11; 14]; tensions := [9; 13];
                    alterations := [8; 15]; category := c_citypop; weight := 1;
                    era := Some Eearly80s; artistStyle := None |}
                 0.6 3 (oracleOf []) 0%nat)).
Proof.
  apply Forall_forall.
  apply (createRichVoicing_at_least_36 seventiesOptions 60 _ 0.6 3 (oracleOf []) 0%nat).
  - discriminate.
  - repeat constructor; discriminate.
  - repeat constructor; discriminate.
Defined.

(** ** Low pitches in a run *)

Lemma lookupVoicing_nonneg (key : option string) (v : ExtendedVoicing) :
  lookupVoicing key = Some v ->
  Forall (fun i => 0 <= i) (intervals v) /\ Forall (fun i => 0 <= i) (tensions v).
Proof.
  unfold lookupVoicing. destruct key as [k|]; [|discriminate].
  destruct (find (fun kv => String.eqb (fst kv) k) voicings) as [[k' v']|] eqn:E;
    [|discriminate].
  simpl. intros H. inversion H; subst v'. apply find_some in E. destruct E as [Hin _].
  simpl in Hin.
  repeat (destruct Hin as [Hin|Hin];
          [inversion Hin; subst; simpl; split; repeat constructor; discriminate|]).
  destruct Hin.
Qed.

Lemma forLoop_preserves (body : nat -> LoopState -> Rand (Result LoopState))
    (Inv : LoopState -> Prop) :
  (forall i st, Inv st -> always (body i st) (fun r => forall st', r = Ok st' -> Inv st')) ->
  forall count i st,
    Inv st -> always (forLoop body i count st) (fun r => forall st', r = Ok st' -> Inv st').
Proof.
  intros Hbody. induction count as [|c IH]; intros i st Hinv; simpl.
  - apply always_ret. intros st' H. inversion H; subst. exact Hinv.
  - eapply always_bind; [apply Hbody; exact Hinv|].
    intros [st1|e] H1.
    + apply IH. apply H1. reflexivity.
    + apply always_ret. intros st' H. discriminate.
Qed.

Lemma octaveSteps_low (l l' : list Z) :
  Forall2 octaveStep l l' ->
  (forall n, In n l -> 36 <= n) ->
  forall q, In q l' -> 24 <= q.
Proof.
  intros HF. induction HF as [|n q l l' Hnq _ IH]; intros Hl q0 Hq0; [destruct Hq0|].
  destruct Hq0 as [<-|Hq0].
  - specialize (Hl n (or_introl eq_refl)). destruct Hnq as [-> | [-> | ->]]; lia.
  - apply IH; [|exact Hq0]. intros n0 Hn0. apply Hl. now right.
Qed.

Lemma clamped_events_low (l : list Z) (events : list NoteEvent) :
  Forall2 (fun note ev => midi ev = Z.max 0 (Z.min 127 note)) l events ->
  (forall q, In q l -> 24 <= q) ->
  forall ev, In ev events -> 24 <= midi ev <= 127.
Proof.
  intros HF. induction HF as [|note e l l' Hm _ IH]; intros Hl ev Hin; [destruct Hin|].
  destruct Hin as [<-|Hin].
  - specialize (Hl note (or_introl eq_refl)). lia.
  - apply IH; [|exact Hin]. intros q Hq. apply Hl. now right.
Qed.

Lemma chordStep_low (options : Options) (settings : StyleSetting)
    (progression : ProgressionTemplate) (arc : list Q) (i : nat) (st : LoopState) :
  In progression progressionTemplates ->
  (forall ev, In ev (ls_track st) -> 24 <= midi ev <= 127) ->
  always (chordStep options settings (Some progression) arc i st)
    (fun r => forall st', r = Ok st' ->
                          forall ev, In ev (ls_track st') -> 24 <= midi ev <= 127).
Proof.
  intros Hcat Hinv. unfold chordStep.
  eapply always_bind; [apply always_True|]. intros idx _.
  destruct (lookupVoicing (nth_error (voicingKeys options) idx)) as [v|] eqn:Ev;
    [|apply always_ret; intros st' H; discriminate].
  destruct (lookupVoicing_nonneg _ _ Ev) as [Hiv Hten].
  eapply always_bind.
  { apply createRichVoicing_low; [|exact Hiv|exact Hten].
    apply progression_roots_range, Hcat. }
  intros notes Hnotes. cbv beta in Hnotes.
  eapply always_bind; [apply always_True|]. intros chordStart _.
  eapply always_bind.
  { apply (always_mapM (addNote settings chordStart)
                       (fun note ev => midi ev = Z.max 0 (Z.min 127 note))).
    intros note rnd k. reflexivity. }
  intros events Hev. cbv beta in Hev. apply always_ret.
  intros st' H. inversion H; subst; clear H. simpl.
  intros ev Hin. apply in_app_or in Hin. destruct Hin as [Hin|Hin]; [auto|].
  pose proof (octaveSteps_low _ _ (voiceLeading_steps (ls_prevNotes st) notes) Hnotes)
    as Hsm.
  apply (clamped_events_low _ _ Hev Hsm ev Hin).
Qed.

Lemma forLoop_low (options : Options) (t : ProgressionTemplate) (arc : list Q) :
  voicingKeys options <> [] ->
  In t (validTemplates (styleOrDefault options)) ->
  always (forLoop (chordStep options (styleSettings (styleOrDefault options))
                             (Some t) arc) 0 8 initialState)
         (fun res => exists st,
              res = Ok st
              /\ emitsChords (styleSettings (styleOrDefault options)) 8 (ls_track st)
              /\ forall ev, In ev (ls_track st) -> 24 <= midi ev <= 127).
Proof.
  intros Hkeys Ht.
  assert (Hcat : In t progressionTemplates).
  { unfold validTemplates in Ht. apply filter_In in Ht. apply Ht. }
  eapply always_weaken.
  - apply always_and.
    + apply forLoop_emitsChords. exact Hkeys.
    + apply (forLoop_preserves _
               (fun st => forall ev, In ev (ls_track st) -> 24 <= midi ev <= 127)).
      * intros i st Hinv. apply chordStep_low; assumption.
      * intros ev [].
  - intros res [(st & -> & Hch) Hlow]. exists st. split; [reflexivity|].
    split; [exact Hch | apply Hlow; reflexivity].
Qed.

(** In the song of every returned file each pitch lies between 24 and 127:
    the data of the file are the encoder's bytes for a song of 8 chords
    none of whose pitches is below 24, so the lower clamp
    [Math.max(0, ...)] of the driver never changes a pitch. *)
Theorem emitted_pitches_at_least_24 (toArray : Encoder) (options : Options) (now : Z)
    (rnd : Oracle) (k : nat) (file : MidiFile) :
  fst (generateMidiFile toArray options now rnd k) = Ok file ->
  exists song,
    toArray song = Ok (data file)
    /\ (forall enc,
           fst (generateMidiFile enc options now rnd k)
           = encodedFile enc (pieceName options now) song)
    /\ emitsChords (styleSettings (styleOrDefault options)) 8 (track_notes song)
    /\ forall ev, In ev (track_notes song) -> 24 <= midi ev <= 127.
Proof.
  intros Hfile.
  destruct (generateMidiFile_returned toArray options now rnd k file Hfile) as (Hkeys & _).
  destruct (generateMidiFile_loop
              (fun st => emitsChords (styleSettings (styleOrDefault options)) 8
                                     (ls_track st)
                         /\ forall ev, In ev (ls_track st) -> 24 <= midi ev <= 127)
              options now rnd k) as (r & st & _ & (Hch & Hlow) & Hr).
  { intros t arc Ht. apply forLoop_low; assumption. }
  pose proof (Hr toArray) as Hgen. rewrite Hfile in Hgen. symmetry in Hgen.
  destruct (encodedFile_Ok _ _ _ _ Hgen) as (Henc & _ & _).
  eexists. split; [exact Henc|]. split; [exact Hr|]. split; [exact Hch | exact Hlow].
Qed.

Lemma emitted_pitches_at_least_24_witness :
  exists file song,
    fst (generateMidiFile sampleEncoder mariyaOptions 0 halves 0%nat) = Ok file
    /\ sampleEncoder song = Ok (data file)
    /\ forall ev, In ev (track_notes song) -> 24 <= midi ev <= 127.
Proof.
  destruct (fst (generateMidiFile sampleEncoder mariyaOptions 0 halves 0%nat))
    as [file|e] eqn:E.
  - destruct (emitted_pitches_at_least_24 sampleEncoder mariyaOptions 0 halves 0%nat file E)
      as (song & Henc & _ & _ & Hlow).
    exists file, song. split; [reflexivity|]. split; [exact Henc | exact Hlow].
  - vm_compute in E. discriminate.
Defined.

(** ** The note set of the builder *)

Lemma closerVoicing_fuel_plus (extra fuel : nat) (root : Z) (visited pending : list Z) :
  (visitBound root pending <= fuel)%nat ->
  closerVoicing (fuel + extra) root visited pending
  = closerVoicing fuel root visited pending.
Proof.
  intros Hb. induction extra as [|e IH]; [now rewrite Nat.add_0_r|].
  replace (fuel + S e)%nat with (S (fuel + e)) by lia.
  rewrite closerVoicing_fuel by lia. exact IH.
Qed.

Lemma closerVoicing_closed (fuel : nat) (root : Z) (visited pending : list Z) :
  (visitBound root pending <= fuel)%nat ->
  (forall n, In n visited -> 12 < n - root -> In (n - 12) (visited ++ pending)) ->
  (forall n, In n (closerVoicing fuel root visited pending) -> 12 < n - root ->
             In (n - 12) (closerVoicing fuel root visited pending))
  /\ (forall n, In n (visited ++ pending) ->
                In n (closerVoicing fuel root visited pending)).
Proof.
  revert visited pending. induction fuel as [|f IH]; intros visited pending Hb Hinv.
  - destruct pending as [|note rest].
    + simpl. rewrite app_nil_r in *. split; [exact Hinv | auto].
    + unfold visitBound in Hb. simpl in Hb. lia.
  - destruct pending as [|note rest].
    + simpl. rewrite app_nil_r in *. split; [exact Hinv | auto].
    + assert (Hcons : visitBound root (note :: rest)
                      = (1 + Z.to_nat (note - root) + visitBound root rest)%nat)
        by reflexivity.
      rewrite Hcons in Hb.
      cbn [closerVoicing].
      assert (Hshift : forall n, In n (visited ++ note :: rest) <->
                                 In n ((visited ++ [note]) ++ rest)).
      { intros n. rewrite <- app_assoc. reflexivity. }
      destruct (Z.gtb_spec (note - root) 12) as [Hgt|Hle]; simpl.
      * destruct (existsb (Z.eqb (note - 12)) (visited ++ note :: rest)) eqn:Eex; simpl.
        -- apply existsb_exists in Eex. destruct Eex as (y & Hy & Hxy).
           apply Z.eqb_eq in Hxy. subst y.
           destruct (IH (visited ++ [note]) rest) as [Hc Hi]; [lia| |].
           ++ intros n Hn Hfar. apply Hshift.
              apply in_app_or in Hn. destruct Hn as [Hn|[<-|[]]]; [auto | exact Hy].
           ++ split; [exact Hc|]. intros n Hn. apply Hi, Hshift, Hn.
        -- destruct (IH (visited ++ [note]) (rest ++ [note - 12])) as [Hc Hi].
           ++ rewrite visitBound_app.
              assert (visitBound root [note - 12] = (1 + Z.to_nat (note - 12 - root))%nat)
                by (unfold visitBound; simpl; lia).
              lia.
           ++ intros n Hn Hfar. apply in_app_or in Hn. destruct Hn as [Hn|[<-|[]]].
              ** rewrite app_assoc. apply in_or_app. left. apply Hshift. auto.
              ** apply in_or_app. right. apply in_or_app. right. now left.
           ++ split; [exact Hc|]. intros n Hn. apply Hi.
              rewrite app_assoc. apply in_or_app. left. apply Hshift, Hn.
      * destruct (IH (visited ++ [note]) rest) as [Hc Hi]; [lia| |].
        -- intros n Hn Hfar. apply Hshift.
           apply in_app_or in Hn. destruct Hn as [Hn|[<-|[]]]; [auto | lia].
        -- split; [exact Hc|]. intros n Hn. apply Hi, Hshift, Hn.
Qed.

Lemma closerVoicing_origin (fuel : nat) (root : Z) (visited pending : list Z) (p : Z) :
  In p (closerVoicing fuel root visited pending) ->
  exists n, In n (visited ++ pending) /\ sameClass p n /\ p <= n /\ (p = n \/ root < p).
Proof.
  revert visited pending. induction fuel as [|f IH]; intros visited pending H.
  - exists p. split; [|split; [apply sameClass_refl | split; [lia | now left]]].
    destruct pending; simpl in H; [rewrite app_nil_r|]; exact H.
  - destruct pending as [|note rest].
    { simpl in H. exists p. rewrite app_nil_r.
      split; [exact H | split; [apply sameClass_refl | split; [lia | now left]]]. }
    cbn [closerVoicing] in H.
    assert (Hshift : forall n, In n ((visited ++ [note]) ++ rest) ->
                               In n (visited ++ note :: rest)).
    { intros n. rewrite <- app_assoc. auto. }
    destruct (Z.gtb_spec (note - root) 12) as [Hgt|Hle]; simpl in H.
    + destruct (existsb (Z.eqb (note - 12)) (visited ++ note :: rest)); simpl in H.
      * destruct (IH _ _ H) as (n & Hn & Hrest). exists n. split; [apply Hshift, Hn | exact Hrest].
      * destruct (IH _ _ H) as (n & Hn & Hcl & Hle & Hor).
        rewrite app_assoc in Hn. apply in_app_or in Hn. destruct Hn as [Hn|[<-|[]]].
        -- exists n. split; [apply Hshift, Hn | auto].
        -- exists note. split; [apply in_or_app; right; now left|].
           split; [|split; [lia | right; destruct Hor as [->|Hor]; lia]].
           eapply sameClass_trans; [exact Hcl|].
           apply octaveStep_sameClass. right. now right.
    + destruct (IH _ _ H) as (n & Hn & Hrest). exists n. split; [apply Hshift, Hn | exact Hrest].
Qed.

(** The "closer voicing" pass of the artist 'Mariya Takeuchi' iterates over
    a set it is adding to, and still ends: allowing more visits than
    [visitBound] changes nothing. The resulting set keeps every note it was
    given, is closed under the rule (a member more than an octave above the
    root has its lower octave in the set), and every member is a given note
    or a given note lowered by whole octaves and still above the root. *)
Theorem closer_voicing_pass (options : Options) (notes : list Z) (root : Z) :
  opt_artistInfluence options = Some "Mariya Takeuchi"%string ->
  let out := applyArtistModifications options notes root in
  (forall extra,
      closerVoicing (visitBound root notes + extra) root [] notes = out)
  /\ (forall n, In n notes -> In n out)
  /\ (forall n, In n out -> 12 < n - root -> In (n - 12) out)
  /\ (forall p, In p out ->
                exists n, In n notes /\ sameClass p n /\ p <= n /\ (p = n \/ root < p)).
Proof.
  intros Ha. cbv zeta. unfold applyArtistModifications. rewrite Ha. simpl.
  destruct (closerVoicing_closed (visitBound root notes) root [] notes) as [Hc Hi];
    [lia | intros n [] |].
  split; [intros extra; apply closerVoicing_fuel_plus; lia|].
  split; [exact Hi|]. split; [exact Hc|].
  intros p Hp. apply (closerVoicing_origin _ _ [] notes p Hp).
Qed.

Lemma closer_voicing_pass_witness :
  let out := applyArtistModifications mariyaOptions [60; 64; 67; 71; 74; 81; 98] 60 in
  (forall n, In n [60; 64; 67; 71; 74; 81; 98] -> In n out)
  /\ (forall n, In n out -> 12 < n - 60 -> In (n - 12) out)
  /\ out = [60; 64; 67; 71; 74; 81; 98; 62; 69; 86].
Proof.
  destruct (closer_voicing_pass mariyaOptions [60; 64; 67; 71; 74; 81; 98] 60 eq_refl)
    as (_ & H1 & H2 & _).
  split; [exact H1|]. split; [exact H2|]. vm_compute. reflexivity.
Defined.

Lemma Set_add_NoDup (x : Z) (s : list Z) : NoDup s -> NoDup (Set_add x s).
Proof.
  intros H. unfold Set_add. destruct (existsb (Z.eqb x) s) eqn:E; [exact H|].
  apply NoDup_app; [exact H | repeat constructor; intros [] |].
  intros y Hy [Hxy|[]]. subst y.
  assert (Hex : existsb (Z.eqb x) s = true).
  { apply existsb_exists. exists x. split; [exact Hy | apply Z.eqb_refl]. }
  congruence.
Qed.

Lemma closerVoicing_NoDup (fuel : nat) (root : Z) (visited pending : list Z) :
  NoDup (visited ++ pending) -> NoDup (closerVoicing fuel root visited pending).
Proof.
  revert visited pending. induction fuel as [|f IH]; intros visited pending H.
  - destruct pending; simpl; [rewrite app_nil_r in H|]; exact H.
  - destruct pending as [|note rest]; [simpl; now rewrite app_nil_r in H|].
    cbn [closerVoicing].
    assert (H' : NoDup ((visited ++ [note]) ++ rest)) by (rewrite <- app_assoc; exact H).
    destruct ((note - root >? 12)
              && negb (existsb (Z.eqb (note - 12)) (visited ++ note :: rest))) eqn:E.
    + apply IH. rewrite app_assoc.
      apply andb_true_iff in E. destruct E as [_ E]. apply negb_true_iff in E.
      apply NoDup_app; [exact H' | repeat constructor; intros [] |].
      intros y Hy [Hxy|[]]. subst y.
      assert (Hex : existsb (Z.eqb (note - 12)) (visited ++ note :: rest) = true).
      { apply existsb_exists. exists (note - 12). split; [|apply Z.eqb_refl].
        rewrite <- app_assoc in Hy. exact Hy. }
      congruence.
    + apply IH. exact H'.
Qed.

Lemma addIntervals_NoDup (options : Options) (root : Z) (ivs notes : list Z) :
  NoDup notes -> always (addIntervals options root ivs notes) (@NoDup Z).
Proof.
  revert notes. induction ivs as [|i t IH]; intros notes H; simpl.
  - apply always_ret. exact H.
  - eapply always_bind; [apply always_True|]. intros n _.
    apply IH, Set_add_NoDup, H.
Qed.

Lemma addTensions_NoDup (options : Options) (root : Z) (voicing : ExtendedVoicing)
    (count : nat) (notes : list Z) :
  NoDup notes -> always (addTensions options root voicing count notes) (@NoDup Z).
Proof.
  revert notes. induction count as [|c IH]; intros notes H; simpl.
  - apply always_ret. exact H.
  - eapply always_bind; [apply always_True|]. intros [|] _.
    + eapply always_bind; [apply always_True|]. intros idx _.
      apply IH, Set_add_NoDup, H.
    + apply IH, H.
Qed.

Lemma applyArtistModifications_NoDup (options : Options) (notes : list Z) (root : Z) :
  NoDup notes -> NoDup (applyArtistModifications options notes root).
Proof.
  intros H. unfold applyArtistModifications.
  destruct (opt_artistInfluence options) as [s|]; [|exact H].
  destruct (String.eqb s "Tatsuro Yamashita"); [apply Set_add_NoDup, H|].
  destruct (String.eqb s "Mariya Takeuchi"); [apply closerVoicing_NoDup; exact H|].
  destruct (String.eqb s "Toshiki Kadomatsu"); [|exact H].
  apply Set_add_NoDup, Set_add_NoDup, H.
Qed.

Lemma sorted_NoDup_strict (l : list Z) :
  Sorted Z.le l -> NoDup l -> StronglySorted Z.lt l.
Proof.
  intros Hs Hn. apply Sorted_StronglySorted in Hs; [|intros a b c; lia].
  induction Hs as [|a t Ht IH Hall]; [constructor|].
  inversion Hn as [|? ? Hnotin Hnt]; subst.
  constructor; [apply IH, Hnt|].
  rewrite Forall_forall in *. intros b Hb.
  specialize (Hall b Hb).
  assert (a <> b) by (intros ->; contradiction). lia.
Qed.

(** The notes [createRichVoicing] hands to the spreader are a set: no pitch
    occurs twice, whatever the voicing, the configuration and the draws
    (an interval, a tension, an artist note or the bass that is already
    present is not added again). Sorted, they are strictly ascending. *)
Theorem voicingNotes_distinct (options : Options) (root : Z) (voicing : ExtendedVoicing)
    (cplx : Q) (rnd : Oracle) (k : nat) :
  NoDup (fst (voicingNotes options root voicing cplx rnd k))
  /\ strictlyAscending (sortAsc (fst (voicingNotes options root voicing cplx rnd k))).
Proof.
  assert (H : NoDup (fst (voicingNotes options root voicing cplx rnd k))).
  { revert rnd k.
    change (always (voicingNotes options root voicing cplx) (@NoDup Z)).
    unfold voicingNotes.
    eapply always_bind; [apply addIntervals_NoDup; constructor|]. intros n1 H1.
    eapply always_bind; [apply addTensions_NoDup; exact H1|]. intros n2 H2.
    eapply always_bind; [apply always_True|]. intros b _.
    apply always_ret. apply Set_add_NoDup.
    destruct (strictEq String.eqb (artistStyle voicing) (opt_artistInfluence options));
      [apply applyArtistModifications_NoDup|]; exact H2. }
  split; [exact H|].
  apply sorted_NoDup_strict; [apply sortAsc_sorted|].
  eapply Permutation_NoDup; [symmetry; apply sortAsc_perm | exact H].
Qed.

(** ** Tension: arc and count *)

Lemma generateTensionArc_nth_range (L : nat) (rnd : Oracle) (k : nat) (i : nat) :
  (0 <= nth i (fst (generateTensionArc L rnd k)) 0 <= 9 # 10)%Q.
Proof.
  unfold generateTensionArc.
  destruct (mapM_random_nth (tensionAt L (peakOf L)) (seq 0 L) rnd k) as (_ & Hlen & Hnth).
  rewrite length_seq in Hlen.
  destruct (Nat.lt_ge_cases i L) as [Hi|Hi].
  - rewrite (Hnth i i 0%Q)
      by (rewrite nth_error_seq; destruct (Nat.ltb_spec i L); [reflexivity | lia]).
    unfold tensionAt.
    match goal with
    | |- context [Qmaxq 0.3 (Qminq 0.9 ?x)] => destruct (clamp_model_spec x) as [_ Hb]
    end.
    lra.
  - rewrite nth_overflow by lia. lra.
Qed.

Lemma complexityOrOne_range (t : ProgressionTemplate) :
  In t progressionTemplates -> (0 <= complexityOrOne t <= 9 # 10)%Q.
Proof.
  intros Hcat. simpl in Hcat.
  repeat (destruct Hcat as [<-|Hcat]; [vm_compute; split; discriminate|]).
  destruct Hcat.
Qed.

(** The complexity handed to the builder is the arc value times the
    template's complexity, at most 0.81: the tension loop of
    [createRichVoicing] runs at most once per chord, at most twice under
    era 'mid80s', and never a negative number of times. *)
Theorem tensionCount_bounded (options : Options) (L : nat) (rnd : Oracle) (k : nat)
    (i : nat) (t : ProgressionTemplate) :
  In t progressionTemplates ->
  let cplx := (nth i (fst (generateTensionArc L rnd k)) 0 * complexityOrOne t)%Q in
  0 <= tensionCount options cplx
  <= (if strictEq Era_eqb (opt_era options) (Some Emid80s) then 2 else 1).
Proof.
  intros Hcat. cbv zeta.
  pose proof (generateTensionArc_nth_range L rnd k i) as Ha.
  pose proof (complexityOrOne_range t Hcat) as Hc.
  set (a := nth i (fst (generateTensionArc L rnd k)) 0%Q) in *. clearbody a.
  set (c := complexityOrOne t) in *. clearbody c.
  assert (Hp : (0 <= a * c <= 81 # 100)%Q) by (split; nra).
  unfold tensionCount, Math_floor.
  destruct (strictEq Era_eqb (opt_era options) (Some Emid80s)).
  - split; [apply Qfloor_nonneg; nra|].
    assert (H : Qfloor (a * c * 3) < 3) by (apply Qfloor_lt; change (inject_Z 3) with 3%Q; nra).
    lia.
  - split; [apply Qfloor_nonneg; nra|].
    assert (H : Qfloor (a * c * 2) < 2) by (apply Qfloor_lt; change (inject_Z 2) with 2%Q; nra).
    lia.
Qed.

Lemma tensionCount_bounded_witness :
  0 <= tensionCount mid80sTatsuroOptions
         (nth 4 (fst (generateTensionArc 8 (oracleOf []) 0%nat)) 0 * complexityOrOne standardTemplate)%Q
  <= 2.
Proof.
  apply (tensionCount_bounded mid80sTatsuroOptions 8 (oracleOf []) 0%nat 4 standardTemplate).
  left. reflexivity.
Defined.

Lemma peakOf_inside (L : nat) : (1 <= L)%nat -> 0 <= peakOf L < Z.of_nat L.
Proof.
  intros HL. unfold peakOf. set (l := Z.of_nat L).
  assert (Hl : 1 <= l) by (unfold l; lia).
  assert (Hlow : 2 * l <= Z.sqrt (5 * l * l)).
  { apply Z.sqrt_le_square; nia. }
  assert (Hhigh : Z.sqrt (5 * l * l) < 3 * l).
  { apply Z.sqrt_lt_square; nia. }
  pose proof (Z_div_mod_eq_full (Z.sqrt (5 * l * l) - l) 2).
  pose proof (Z.mod_pos_bound (Z.sqrt (5 * l * l) - l) 2). lia.
Qed.

(** For every length of at least 1 the peak index [floor(length / phi)] is
    a valid step of the arc, and the tension generated there is between 0.8
    and 0.9 whatever noise is drawn. *)
Theorem tensionArc_peak (L : nat) (rnd : Oracle) (k : nat) :
  (1 <= L)%nat ->
  0 <= peakOf L < Z.of_nat L
  /\ (8 # 10 <= nth (Z.to_nat (peakOf L)) (fst (generateTensionArc L rnd k)) 0
      <= 9 # 10)%Q.
Proof.
  intros HL. pose proof (peakOf_inside L HL) as Hp. split; [exact Hp|].
  unfold generateTensionArc.
  destruct (mapM_random_nth (tensionAt L (peakOf L)) (seq 0 L) rnd k) as (_ & _ & Hnth).
  rewrite (Hnth (Z.to_nat (peakOf L)) (Z.to_nat (peakOf L)) 0%Q).
  2:{ rewrite nth_error_seq.
      destruct (Nat.ltb_spec (Z.to_nat (peakOf L)) L); [reflexivity | lia]. }
  pose proof (u_val_range (rnd (k + Z.to_nat (peakOf L))%nat)) as Hu.
  set (u := u_val (rnd (k + Z.to_nat (peakOf L))%nat)) in *. clearbody u.
  unfold tensionAt. rewrite Z2Nat.id by lia.
  set (x := (0.5 + 0.4 * (1 - Qabs (inject_Z (peakOf L) - inject_Z (peakOf L))
                               / (inject_Z (Z.of_nat L) / 2))
             + (u - 0.5) * 0.2)%Q).
  assert (Hx : (x == 0.9 + (u - 0.5) * 0.2)%Q).
  { unfold x.
    assert (H0 : (inject_Z (peakOf L) - inject_Z (peakOf L) == 0)%Q) by ring.
    rewrite H0. change (Qabs 0) with 0%Q. unfold Qdiv. ring. }
  destruct (clamp_model_spec x) as [Hv Hb].
  split; [|lra].
  rewrite Hv. unfold clampQ.
  destruct (Qltb x (3 # 10)) eqn:E1; [apply Qltb_lt in E1; lra|].
  destruct (Qltb (9 # 10) x) eqn:E2; lra.
Qed.

Lemma tensionArc_peak_witness :
  0 <= peakOf 8 < 8
  /\ (8 # 10 <= nth (Z.to_nat (peakOf 8)) (fst (generateTensionArc 8 (oracleOf []) 0%nat)) 0
      <= 9 # 10)%Q.
Proof.
  apply (tensionArc_peak 8 (oracleOf []) 0%nat). repeat constructor.
Defined.

(** ** The earlier variant, continued *)

(** In the variant the velocity is [85 + (u - 0.5) * 20] for the draw [u],
    a number of [75, 95): the clamp to [60, 100] around it never changes
    it, and the emitted pitch is the note clamped to [0, 127]. *)
Theorem variant_velocity_never_clamped (chordStart : Q) (note : Z) (rnd : Oracle)
    (k : nat) :
  let ev := fst (SailorMoonGene.addNote chordStart note rnd k) in
  let u := u_val (rnd k) in
  velocity ev = ((85 + (u - 0.5) * 20) / 127)%Q
  /\ (75 <= 85 + (u - 0.5) * 20 < 95)%Q
  /\ midi ev = Z.max 0 (Z.min 127 note).
Proof.
  cbv zeta. pose proof (u_val_range (rnd k)) as Hu.
  unfold SailorMoonGene.addNote, bind, Math_random, ret. simpl.
  set (u := u_val (rnd k)) in *. clearbody u.
  split; [|split; [split; lra | reflexivity]].
  unfold Qminq, Qmaxq.
  destruct (Qle_bool 60 (85 + (u - 0.5) * 20)) eqn:E1.
  - destruct (Qle_bool 100 (85 + (u - 0.5) * 20)) eqn:E2; [|reflexivity].
    apply Qle_bool_iff in E2. lra.
  - assert (H : (60 <= 85 + (u - 0.5) * 20)%Q) by lra.
    apply Qle_bool_iff in H. congruence.
Qed.

(** A chord of the variant whose pitches enter the range map inside
    [24, 96]. *)
Lemma variant_spreadVoicing_range_map_witness :
  let out := fst (SailorMoonGene.spreadVoicing [60; 64; 67; 71; 74; 48] 2
                    (oracleOf []) 0%nat) in
  map rangeClamp out = out /\ forall p, In p out -> 36 <= p <= 84.
Proof.
  apply (variant_spreadVoicing_range_map [60; 64; 67; 71; 74; 48] 2 (oracleOf []) 0%nat).
  vm_compute. intros p H.
  repeat (destruct H as [H|H]; [subst p; split; discriminate|]). destruct H.
Defined.

(** ** Progression choice for the styles with a template of their own *)

(** For the styles 'ballad' and 'fusion' the filter keeps two templates, and
    the draw picks between them at one half: the 'standard' progression
    when it is below 1/2, the style's own otherwise. *)
Theorem selectProgression_two_way (sty : Style) (rnd : Oracle) (k : nat) :
  sty = ballad \/ sty = fusion ->
  validTemplates sty = [standardTemplate; styleTemplate sty]
  /\ fst (selectProgression sty rnd k)
     = Some (if Qltb (u_val (rnd k)) (1 # 2) then standardTemplate else styleTemplate sty).
Proof.
  intros Hsty.
  assert (Hvalid : validTemplates sty = [standardTemplate; styleTemplate sty])
    by (destruct Hsty as [-> | ->]; reflexivity).
  split; [exact Hvalid|].
  unfold selectProgression, randomIndex, bind, Math_random, ret. rewrite Hvalid.
  cbn [fst length]. change (Z.of_nat 2) with 2.
  pose proof (u_val_range (rnd k)) as Hu.
  set (u := u_val (rnd k)) in *. clearbody u.
  unfold Math_floor.
  destruct (Qltb u (1 # 2)) eqn:E.
  - apply Qltb_lt in E.
    assert (H0 : 0 <= Qfloor (u * inject_Z 2)).
    { apply Qfloor_nonneg. change (inject_Z 2) with 2%Q. lra. }
    assert (H1 : Qfloor (u * inject_Z 2) < 1).
    { apply Qfloor_lt. change (inject_Z 2) with 2%Q. change (inject_Z 1) with 1%Q. lra. }
    replace (Qfloor (u * inject_Z 2)) with 0 by lia. reflexivity.
  - apply Qltb_ge in E.
    assert (H0 : 1 <= Qfloor (u * inject_Z 2)).
    { rewrite <- (Qfloor_Z 1). apply Qfloor_resp_le.
      change (inject_Z 2) with 2%Q. change (inject_Z 1) with 1%Q. lra. }
    assert (H1 : Qfloor (u * inject_Z 2) < 2).
    { apply Qfloor_lt. change (inject_Z 2) with 2%Q. lra. }
    replace (Qfloor (u * inject_Z 2)) with 1 by lia. reflexivity.
Qed.

Lemma selectProgression_two_way_witness :
  fst (selectProgression ballad (oracleOf [mkU01 (3 # 4) eq_refl]) 0%nat)
  = Some (styleTemplate ballad).
Proof.
  apply (selectProgression_two_way ballad (oracleOf [mkU01 (3 # 4) eq_refl]) 0%nat).
  left. reflexivity.
Defined.
